(** * Wormhole fragment shader: geodesic integrator and environment selection

    Shallow embedding of the GLSL fragment shader returned by
    [Wormhole3D.get_fragment_shader] in [src/WH.py] (lines 99-169).

    The shader's [float] is modelled by the real numbers [R] (ideal
    arithmetic, no rounding); [vec2], [vec3] and [mat3] are records of
    reals.  Where rounding decides a property, the operation is also given
    with its rounding written out: [LtoR_f32] is [LtoR] in binary32, and
    the host's one float-to-integer conversion, in [gif_duration_for],
    rounds its binary64 quotient first.  The uniforms [rho], [a] and [M_wh] are section variables, the
    per-frame uniforms and [gl_FragCoord] are arguments of [main].  The
    mutable locals [l], [r], [dl], [H], [phi] of [main] form the record
    [RayState]; the [for] loop is a structural recursion on the number of
    iterations that remain.  [texture(sampler, dir)] is kept symbolic: the
    result of [main] records which cube map is sampled and along which
    direction. *)

From Stdlib Require Import Reals Lra Lia List Arith ZArith.
Import ListNotations.

Open Scope R_scope.

(** ** GLSL vectors and built-ins *)

Record vec2 : Type := mkVec2 { x2 : R; y2 : R }.
Record vec3 : Type := mkVec3 { x3 : R; y3 : R; z3 : R }.

(** A [mat3] is stored by columns, as the GLSL constructor fills it. *)
Record mat3 : Type := mkMat3 { col0 : vec3; col1 : vec3; col2 : vec3 }.

Definition xy (v : vec3) : vec2 := mkVec2 (x3 v) (y3 v).

Definition length2 (v : vec2) : R := sqrt (x2 v * x2 v + y2 v * y2 v).
Definition length3 (v : vec3) : R :=
  sqrt (x3 v * x3 v + y3 v * y3 v + z3 v * z3 v).

(** [normalize]: on the zero vector GLSL leaves the result undefined; the
    value these definitions take there carries no meaning. *)
Definition normalize2 (v : vec2) : vec2 :=
  mkVec2 (x2 v / length2 v) (y2 v / length2 v).
Definition normalize3 (v : vec3) : vec3 :=
  mkVec3 (x3 v / length3 v) (y3 v / length3 v) (z3 v / length3 v).

Definition scale2 (k : R) (v : vec2) : vec2 := mkVec2 (k * x2 v) (k * y2 v).
Definition scale3 (k : R) (v : vec3) : vec3 :=
  mkVec3 (k * x3 v) (k * y3 v) (k * z3 v).
Definition add3 (u v : vec3) : vec3 :=
  mkVec3 (x3 u + x3 v) (y3 u + y3 v) (z3 u + z3 v).

(** [M * v] for a column-major matrix. *)
Definition mulMV (m : mat3) (v : vec3) : vec3 :=
  add3 (add3 (scale3 (x3 v) (col0 m)) (scale3 (y3 v) (col1 m)))
       (scale3 (z3 v) (col2 m)).

(** GLSL [sign]: 1 above zero, -1 below, 0 at zero. *)
Definition sign (x : R) : R :=
  if Rlt_dec 0 x then 1 else if Rlt_dec x 0 then -1 else 0.

(** ** Binary floating point

    Rounding to nearest, ties to even, of a real number to the format
    with [prec] significant bits whose smallest positive value is
    [2^emin]; results beyond the largest finite value are not modelled. *)

(** [floor (log2 |x|) + 1], for [x <> 0]. *)
Definition mag2 (x : R) : Z := (Int_part (ln (Rabs x) / ln 2) + 1)%Z.

(** Nearest integer, ties to even. *)
Definition rne (m : R) : Z :=
  let f := Int_part m in
  let d := m - IZR f in
  if Rlt_dec d (1 / 2) then f
  else if Rlt_dec (1 / 2) d then (f + 1)%Z
  else if Z.even f then f else (f + 1)%Z.

Definition round_float (prec emin : Z) (x : R) : R :=
  if Req_dec_T x 0 then 0
  else
    let c := Z.max (mag2 x - prec) emin in
    IZR (rne (x * powerRZ 2 (- c))) * powerRZ 2 c.

Definition f64 : R -> R := round_float 53 (-1074).

(** ** Shader constants (lines 113-118) *)

Definition PI : R := 31415926535 / 10000000000.
Definition DT : R := 5 / 100.
Definition MAX_STEPS : nat := 500.
Definition ZOOM : R := 1.
Definition BOUNDARY : R := 50.
Definition FLOW_SPEED : R := 3 / 100.

(** ** Ray state and shader output *)

(** The locals of [main] that the integration loop reads and writes. *)
Record RayState : Type := mkRay {
  l : R;      (* flare coordinate *)
  r : R;      (* embedding radius, as last assigned *)
  dl : R;     (* rate of change of l *)
  H : R;      (* angular-momentum invariant *)
  phi : R     (* accumulated azimuth *)
}.

Inductive samplerCube : Type := u_skybox_a | u_skybox_b.

(** [fragColor = texture(sampler, dir)]. *)
Record fragColor : Type := texture { sampler : samplerCube; dir : vec3 }.

(** Per-frame uniforms read by [main]. *)
Record Uniforms : Type := mkUniforms {
  u_resolution : vec2;
  u_camera_pos : vec3;
  u_camera_fwd : vec3;
  u_camera_right : vec3;
  u_camera_up : vec3;
  u_time : R
}.

(** [mat3 rotationY(float angle)] (lines 127-131). *)
Definition rotationY (angle : R) : mat3 :=
  let s := sin angle in
  let c := cos angle in
  mkMat3 (mkVec3 c 0 s) (mkVec3 0 1 0) (mkVec3 (- s) 0 c).

(** The flare profile inside [LtoR]; its derivative is [atan]. *)
Definition flare (x : R) : R := x * atan x - 5 / 10 * ln (1 + x * x).

Section Shader.

(** Metric uniforms, set once from [WORMHOLE_RHO], [WORMHOLE_A],
    [WORMHOLE_M]. *)
Variables rho a M_wh : R.

(** [float LtoR(float l)] (lines 119-122). *)
Definition LtoR (l : R) : R :=
  let x := Rmax 0 (2 * (Rabs l - a) / (PI * M_wh)) in
  rho + M_wh * (x * atan x - 5 / 10 * ln (1 + x * x)).

(** [float LtoDR(float l)] (lines 123-126). *)
Definition LtoDR (l : R) : R :=
  let x := Rmax 0 (2 * (Rabs l - a) / (PI * M_wh)) in
  2 * atan x * sign l / PI.

(** The clamped local [x] shared by [LtoR] and [LtoDR]. *)
Definition throat_x (l : R) : R := Rmax 0 (2 * (Rabs l - a) / (PI * M_wh)).

(** Body of the [for] loop up to the [break] test (lines 141-145). *)
Definition step (st : RayState) : RayState :=
  let r' := LtoR (l st) in
  let dr := LtoDR (l st) in
  let l' := l st + dl st * DT in
  let phi' := phi st + H st / (r' * r') * DT in
  let dl' := dl st + H st * H st * dr / (r' * r' * r') * DT in
  mkRay l' r' dl' (H st) phi'.

(** The [for] loop with [n] iterations left (lines 140-147). *)
Fixpoint loop (n : nat) (st : RayState) : RayState :=
  match n with
  | O => st
  | S n' =>
      let st' := step st in
      if Rgt_dec (Rabs (l st')) BOUNDARY then st' else loop n' st'
  end.

(** The states at the end of each executed iteration, in order. *)
Fixpoint trace (n : nat) (st : RayState) : list RayState :=
  match n with
  | O => []
  | S n' =>
      let st' := step st in
      st' :: (if Rgt_dec (Rabs (l st')) BOUNDARY then [] else trace n' st')
  end.

(** Number of loop iterations executed. *)
Definition iterations (n : nat) (st : RayState) : nat :=
  length (trace n st).

(** Lines 133-134. *)
Definition uv_of (u : Uniforms) (FragCoord : vec2) : vec2 :=
  mkVec2 ((2 * x2 FragCoord - x2 (u_resolution u)) / y2 (u_resolution u))
         ((2 * y2 FragCoord - y2 (u_resolution u)) / y2 (u_resolution u)).

Definition ray_dir_of (u : Uniforms) (FragCoord : vec2) : vec3 :=
  let uv := uv_of u FragCoord in
  normalize3 (add3 (add3 (scale3 ZOOM (u_camera_fwd u))
                         (scale3 (x2 uv) (u_camera_right u)))
                   (scale3 (y2 uv) (u_camera_up u))).

(** Lines 135-139: the locals as they stand when the loop is entered. *)
Definition init_state (u : Uniforms) (FragCoord : vec2) : RayState :=
  let ray_dir := ray_dir_of u FragCoord in
  let l0 := z3 (u_camera_pos u) in
  let r0 := length3 (u_camera_pos u) in
  let dl0 := z3 ray_dir in
  let H0 := r0 * length2 (xy ray_dir) in
  mkRay l0 r0 dl0 H0 0.

(** Lines 153-156. *)
Definition initial_perp_dir (ray_dir : vec3) : vec2 :=
  if Rgt_dec (length2 (xy ray_dir)) (1 / 100000)
  then normalize2 (xy ray_dir)
  else mkVec2 0 0.

(** Lines 148-150: [dx] and [dy] from the locals after the loop. *)
Definition exit_dx (st : RayState) : R :=
  let dr := LtoDR (l st) in
  dl st * dr * cos (phi st) - H st / r st * sin (phi st).

Definition exit_dy (st : RayState) : R :=
  let dr := LtoDR (l st) in
  dl st * dr * sin (phi st) + H st / r st * cos (phi st).

(** Lines 151-158. *)
Definition final_dir_of (ray_dir : vec3) (st : RayState) : vec3 :=
  let dx := exit_dx st in
  let dy := exit_dy st in
  let perp := scale2 dy (initial_perp_dir ray_dir) in
  normalize3 (mkVec3 (x2 perp) (y2 perp) dx).

(** Lines 159-167. *)
Definition select_env (time : R) (st : RayState) (final_dir : vec3)
  : fragColor :=
  let rot_a := rotationY (time * FLOW_SPEED) in
  let rot_b := rotationY (- time * FLOW_SPEED * (7 / 10)) in
  let rotated_dir_a := mulMV rot_a final_dir in
  let rotated_dir_b := mulMV rot_b final_dir in
  if Rge_dec (l st) 0
  then texture u_skybox_a rotated_dir_a
  else texture u_skybox_b rotated_dir_b.

(** [void main()] (lines 132-168). *)
Definition main (u : Uniforms) (FragCoord : vec2) : fragColor :=
  let ray_dir := ray_dir_of u FragCoord in
  let st := loop MAX_STEPS (init_state u FragCoord) in
  select_env (u_time u) st (final_dir_of ray_dir st).

End Shader.


(** ** Host side: configuration and per-frame uniforms *)

(** Lines 9-13. *)
Definition WINDOW_SIZE : vec2 := mkVec2 1280 720.
Definition WORMHOLE_RHO : R := 2.
Definition WORMHOLE_A : R := 2.
Definition WORMHOLE_M : R := 3 / 10.

(** [np.cross]. *)
Definition cross (u v : vec3) : vec3 :=
  mkVec3 (y3 u * z3 v - z3 u * y3 v)
         (z3 u * x3 v - x3 u * z3 v)
         (x3 u * y3 v - y3 u * x3 v).

(** The uniforms [run] uploads for one frame (lines 237-256), for a camera
    at [camera_pos] with the given yaw and pitch. *)
Definition frame_uniforms (camera_pos : vec3) (yaw pitch time : R)
  : Uniforms :=
  let cam_fwd :=
    mkVec3 (cos yaw * cos pitch) (sin pitch) (sin yaw * cos pitch) in
  let global_up := mkVec3 0 1 0 in
  let cam_right := normalize3 (cross cam_fwd global_up) in
  let cam_up := cross cam_right cam_fwd in
  mkUniforms WINDOW_SIZE camera_pos cam_fwd cam_right cam_up time.

(** The shader under the configured metric. *)
Definition wormhole_main : Uniforms -> vec2 -> fragColor :=
  main WORMHOLE_RHO WORMHOLE_A WORMHOLE_M.

(** ** Reference frames used below *)

(** Camera looking along +z (yaw a quarter turn, level pitch). *)
Definition looking_out (camera_pos : vec3) (time : R) : Uniforms :=
  mkUniforms WINDOW_SIZE camera_pos
             (mkVec3 0 0 1) (mkVec3 (-1) 0 0) (mkVec3 0 1 0) time.

(** Camera looking along -z, the orientation at start-up. *)
Definition looking_in (camera_pos : vec3) (time : R) : Uniforms :=
  mkUniforms WINDOW_SIZE camera_pos
             (mkVec3 0 0 (-1)) (mkVec3 1 0 0) (mkVec3 0 1 0) time.

(** The point of the window where [uv = (0,0)]. *)
Definition screen_centre : vec2 := mkVec2 640 360.

(** Centre of the pixel just right of and above the screen centre. *)
Definition pixel_640_360 : vec2 := mkVec2 (1281 / 2) (721 / 2).

(** Length of the unnormalised ray of [looking_out] through
    [pixel_640_360]. *)
Definition pixel_ray_norm : R := length3 (mkVec3 (- (1 / 720)) (1 / 720) 1).

(** The locals after the loop with [r] re-evaluated at the final [l]:
    the reading of the exit reconstruction in which the radius, like
    [dr], is taken at the final flare coordinate. *)
Definition refresh_r (rho a M_wh : R) (st : RayState) : RayState :=
  mkRay (l st) (LtoR rho a M_wh (l st)) (dl st) (H st) (phi st).

(** ** Notions used to state further properties *)

Definition dot3 (u v : vec3) : R :=
  x3 u * x3 v + y3 u * y3 v + z3 u * z3 v.

(** Three unit vectors, pairwise perpendicular. *)
Definition orthonormal (f rt up : vec3) : Prop :=
  dot3 f f = 1 /\ dot3 rt rt = 1 /\ dot3 up up = 1
  /\ dot3 f rt = 0 /\ dot3 f up = 0 /\ dot3 rt up = 0.

(** The ray state reflected through the throat. *)
Definition mirror (st : RayState) : RayState :=
  mkRay (- l st) (r st) (- dl st) (H st) (phi st).

(** The vector [final_dir] holds just before [normalize] (lines 151-157). *)
Definition exit_vector (a M_wh : R) (ray_dir : vec3) (st : RayState) : vec3 :=
  let dx := exit_dx a M_wh st in
  let dy := exit_dy a M_wh st in
  let perp := scale2 dy (initial_perp_dir ray_dir) in
  mkVec3 (x2 perp) (y2 perp) dx.

(** Camera looking along +x (zero yaw, level pitch). *)
Definition looking_across (camera_pos : vec3) (time : R) : Uniforms :=
  mkUniforms WINDOW_SIZE camera_pos
             (mkVec3 1 0 0) (mkVec3 0 0 1) (mkVec3 0 1 0) time.

(** ** Host side: the frame loop of [Wormhole3D.run] (lines 196-275)

    One pass of the [while] loop is the function [frame]; what pygame
    hands to it (clock tick, pending events, mouse motion, measured frame
    rate, millisecond counter) is its [FrameInput].  The picture read
    back from the screen is kept abstract: [render] gives it from the
    uniforms of the frame.  The files [save_gif] writes are collected in
    the field [gifs]. *)

Inductive Key : Type :=
  K_ESCAPE | K_w | K_s | K_a | K_d | K_e | K_q | K_SPACE | K_other.

Inductive Event : Type :=
  | QUIT
  | KEYDOWN (key : Key)
  | KEYUP (key : Key)
  | OTHER_EVENT.

(** Line 33. *)
Definition speed : R := 3.

Definition global_up : vec3 := mkVec3 0 1 0.

(** numpy [array * scalar]. *)
Definition times (v : vec3) (k : R) : vec3 :=
  mkVec3 (x3 v * k) (y3 v * k) (z3 v * k).

(** Line 235. *)
Definition clamp_pitch (p : R) : R :=
  Rmax (- Rtrigo1.PI / 2 + 1 / 100) (Rmin p (Rtrigo1.PI / 2 - 1 / 100)).

(** Lines 237-245. *)
Definition cam_fwd_of (yaw pitch : R) : vec3 :=
  mkVec3 (cos yaw * cos pitch) (sin pitch) (sin yaw * cos pitch).

Definition cam_right_of (yaw pitch : R) : vec3 :=
  normalize3 (cross (cam_fwd_of yaw pitch) global_up).

(** Line 247. *)
Definition move_vec_of (yaw pitch : R) (velocity : vec3) : vec3 :=
  add3 (add3 (times (cam_right_of yaw pitch) (x3 velocity))
             (times global_up (y3 velocity)))
       (times (cam_fwd_of yaw pitch) (z3 velocity)).

(** Line 182: [int(1000 / fps)] truncates the binary64 quotient, which
    is not negative on this branch. *)
Definition gif_duration_for (fps : R) : Z :=
  if Rlt_dec 0 fps then Int_part (f64 (1000 / fps)) else 33%Z.

(** The velocity component a movement key drives, and its value. *)
Inductive Axis : Type := AxisX | AxisY | AxisZ.

Definition component (ax : Axis) (v : vec3) : R :=
  match ax with AxisX => x3 v | AxisY => y3 v | AxisZ => z3 v end.

Definition key_binding (k : Key) : option (Axis * R) :=
  match k with
  | K_w => Some (AxisZ, 1)
  | K_s => Some (AxisZ, -1)
  | K_a => Some (AxisX, -1)
  | K_d => Some (AxisX, 1)
  | K_e => Some (AxisY, 1)
  | K_q => Some (AxisY, -1)
  | _ => None
  end.

(** A velocity whose components are all -1, 0 or 1. *)
Definition unit_steps (v : vec3) : Prop :=
  (x3 v = -1 \/ x3 v = 0 \/ x3 v = 1)
  /\ (y3 v = -1 \/ y3 v = 0 \/ y3 v = 1)
  /\ (z3 v = -1 \/ z3 v = 0 \/ z3 v = 1).

Section Host.

Context {Image : Type}.

(** The frame read back after drawing with the given uniforms. *)
Variable render : Uniforms -> Image.

Record Gif : Type := mkGif {
  gif_frames : list Image;
  gif_duration : Z
}.

Record Sim : Type := mkSim {
  camera_pos : vec3;
  yaw : R;
  pitch : R;
  velocity : vec3;
  is_recording : bool;
  frames_buffer : list Image;
  running : bool;
  gifs : list Gif
}.

Record FrameInput : Type := mkFrameInput {
  tick_ms : R;            (* clock.tick(60) *)
  events : list Event;    (* pygame.event.get() *)
  mouse_rel : R * R;      (* pygame.mouse.get_rel() *)
  fps : R;                (* clock.get_fps() *)
  ticks_ms : R            (* pygame.time.get_ticks() *)
}.

Definition set_velocity (s : Sim) (v : vec3) : Sim :=
  mkSim (camera_pos s) (yaw s) (pitch s) v (is_recording s)
        (frames_buffer s) (running s) (gifs s).

Definition stop_running (s : Sim) : Sim :=
  mkSim (camera_pos s) (yaw s) (pitch s) (velocity s) (is_recording s)
        (frames_buffer s) false (gifs s).

(** [save_gif] (lines 171-194). *)
Definition save_gif (fps : R) (s : Sim) : Sim :=
  match frames_buffer s with
  | [] => s
  | _ :: _ =>
      mkSim (camera_pos s) (yaw s) (pitch s) (velocity s) (is_recording s)
            [] (running s)
            (gifs s ++ [mkGif (frames_buffer s) (gif_duration_for fps)])
  end.

(** Body of the event loop (lines 201-230). *)
Definition handle_event (fps : R) (s : Sim) (e : Event) : Sim :=
  let v := velocity s in
  match e with
  | QUIT => stop_running s
  | KEYDOWN k =>
      match k with
      | K_ESCAPE => stop_running s
      | K_w => set_velocity s (mkVec3 (x3 v) (y3 v) 1)
      | K_s => set_velocity s (mkVec3 (x3 v) (y3 v) (-1))
      | K_a => set_velocity s (mkVec3 (-1) (y3 v) (z3 v))
      | K_d => set_velocity s (mkVec3 1 (y3 v) (z3 v))
      | K_e => set_velocity s (mkVec3 (x3 v) 1 (z3 v))
      | K_q => set_velocity s (mkVec3 (x3 v) (-1) (z3 v))
      | K_SPACE => s
      | K_other => s
      end
  | KEYUP k =>
      match k with
      | K_w => if Req_dec_T (z3 v) 1
               then set_velocity s (mkVec3 (x3 v) (y3 v) 0) else s
      | K_s => if Req_dec_T (z3 v) (-1)
               then set_velocity s (mkVec3 (x3 v) (y3 v) 0) else s
      | K_a => if Req_dec_T (x3 v) (-1)
               then set_velocity s (mkVec3 0 (y3 v) (z3 v)) else s
      | K_d => if Req_dec_T (x3 v) 1
               then set_velocity s (mkVec3 0 (y3 v) (z3 v)) else s
      | K_e => if Req_dec_T (y3 v) 1
               then set_velocity s (mkVec3 (x3 v) 0 (z3 v)) else s
      | K_q => if Req_dec_T (y3 v) (-1)
               then set_velocity s (mkVec3 (x3 v) 0 (z3 v)) else s
      | K_SPACE =>
          if negb (is_recording s)
          then mkSim (camera_pos s) (yaw s) (pitch s) (velocity s) true
                     [] (running s) (gifs s)
          else save_gif fps
                 (mkSim (camera_pos s) (yaw s) (pitch s) (velocity s) false
                        (frames_buffer s) (running s) (gifs s))
      | K_ESCAPE => s
      | K_other => s
      end
  | OTHER_EVENT => s
  end.

(** The uniforms uploaded in a frame entered in state [s] (lines 232-256). *)
Definition uploaded (inp : FrameInput) (s : Sim) : Uniforms :=
  let dt := tick_ms inp / 1000 in
  let s1 := fold_left (handle_event (fps inp)) (events inp) s in
  let yaw' := yaw s1 + fst (mouse_rel inp) * (5 / 1000) in
  let pitch' := clamp_pitch (pitch s1 - snd (mouse_rel inp) * (5 / 1000)) in
  let move_vec := move_vec_of yaw' pitch' (velocity s1) in
  let camera_pos' := add3 (camera_pos s1) (times (times move_vec speed) dt) in
  frame_uniforms camera_pos' yaw' pitch' (ticks_ms inp / 1000).

(** One pass of the [while] loop (lines 199-273). *)
Definition frame (inp : FrameInput) (s : Sim) : Sim :=
  let s1 := fold_left (handle_event (fps inp)) (events inp) s in
  let yaw' := yaw s1 + fst (mouse_rel inp) * (5 / 1000) in
  let pitch' := clamp_pitch (pitch s1 - snd (mouse_rel inp) * (5 / 1000)) in
  let u := uploaded inp s in
  let image := render u in
  let buffer' :=
    if is_recording s1 then frames_buffer s1 ++ [image]
    else frames_buffer s1 in
  mkSim (u_camera_pos u) yaw' pitch' (velocity s1) (is_recording s1)
        buffer' (running s1) (gifs s1).

(** The [while running] loop over the frames pygame delivers. *)
Fixpoint run (inputs : list FrameInput) (s : Sim) : Sim :=
  match inputs with
  | [] => s
  | inp :: rest => if running s then run rest (frame inp s) else s
  end.

(** The state [__init__] leaves (lines 30-41). *)
Definition initial_sim : Sim :=
  mkSim (mkVec3 0 0 15) (- (Rtrigo1.PI / 2)) 0 (mkVec3 0 0 0)
        false [] true [].

(** What the recording machinery maintains: outside a recording the
    buffer is empty, and no file written so far is empty. *)
Definition recording_inv (s : Sim) : Prop :=
  (is_recording s = true \/ frames_buffer s = [])
  /\ Forall (fun g => gif_frames g <> []) (gifs s).

End Host.

(** ** Facts about the built-ins *)

Lemma PI_pos : 0 < PI.
Proof. unfold PI. lra. Qed.

Lemma sign_pos (x : R) : 0 < x -> sign x = 1.
Proof.
  intros Hx. unfold sign. destruct (Rlt_dec 0 x); [reflexivity | lra].
Qed.

Lemma sign_neg (x : R) : x < 0 -> sign x = -1.
Proof.
  intros Hx. unfold sign.
  destruct (Rlt_dec 0 x); [lra |].
  destruct (Rlt_dec x 0); [reflexivity | lra].
Qed.

Lemma sign_0 : sign 0 = 0.
Proof.
  unfold sign.
  destruct (Rlt_dec 0 0); [lra |]. destruct (Rlt_dec 0 0); [lra | reflexivity].
Qed.

(** ** The flare profile *)

Lemma flare_deriv (c : R) : derivable_pt_lim flare c (atan c).
Proof.
  assert (Hpos : 0 < 1 + c * c) by nra.
  assert (D1 : derivable_pt_lim (id * atan)%F c
                 (1 * atan c + id c * / (1 + c ^ 2))).
  { apply derivable_pt_lim_mult.
    - apply derivable_pt_lim_id.
    - apply derivable_pt_lim_atan. }
  assert (D2 : derivable_pt_lim (fct_cte 1 + id * id)%F c
                 (0 + (1 * id c + id c * 1))).
  { apply derivable_pt_lim_plus.
    - apply derivable_pt_lim_const.
    - apply derivable_pt_lim_mult; apply derivable_pt_lim_id. }
  assert (D3 : derivable_pt_lim (comp ln (fct_cte 1 + id * id)%F) c
                 (/ (1 + c * c) * (0 + (1 * id c + id c * 1)))).
  { apply derivable_pt_lim_comp; [exact D2 |].
    apply (derivable_pt_lim_ln (1 + c * c) Hpos). }
  pose proof (derivable_pt_lim_minus _ _ _ _ _ D1
                (derivable_pt_lim_scal _ (5 / 10) _ _ D3)) as D.
  replace (atan c) with
    (1 * atan c + id c * / (1 + c ^ 2)
     - 5 / 10 * (/ (1 + c * c) * (0 + (1 * id c + id c * 1)))).
  - exact D.
  - unfold id. field. nra.
Qed.

Lemma flare_0 : flare 0 = 0.
Proof.
  unfold flare. rewrite atan_0, Rmult_0_l, Rplus_0_r, ln_1. lra.
Qed.

Lemma flare_increasing (x y : R) : 0 <= x -> x < y -> flare x < flare y.
Proof.
  intros Hx Hxy.
  destruct (MVT_cor2 flare atan x y Hxy) as [c [Hc [Hc1 Hc2]]].
  - intros c _. apply flare_deriv.
  - assert (0 < atan c).
    { rewrite <- atan_0. apply atan_increasing. lra. }
    nra.
Qed.

Lemma flare_pos (x : R) : 0 < x -> 0 < flare x.
Proof.
  intros Hx. rewrite <- flare_0. apply flare_increasing; lra.
Qed.

(** ** The metric functions *)

Section Metric.

Variables rho a M_wh : R.

Lemma LtoR_flare (l0 : R) :
  LtoR rho a M_wh l0 = rho + M_wh * flare (throat_x a M_wh l0).
Proof. reflexivity. Qed.

Lemma LtoDR_throat (l0 : R) :
  LtoDR a M_wh l0 = 2 * atan (throat_x a M_wh l0) * sign l0 / PI.
Proof. reflexivity. Qed.

Lemma throat_x_nonneg (l0 : R) : 0 <= throat_x a M_wh l0.
Proof. unfold throat_x. apply Rmax_l. Qed.

(** [sign(0) = 0] kills the derivative at the centre, whatever [x] is. *)
Lemma LtoDR_0 : LtoDR a M_wh 0 = 0.
Proof.
  rewrite LtoDR_throat, sign_0. unfold Rdiv. ring.
Qed.

Hypothesis M_pos : 0 < M_wh.

Lemma throat_quot_sign (l0 : R) :
  2 * (Rabs l0 - a) / (PI * M_wh) = (Rabs l0 - a) * (2 / (PI * M_wh))
  /\ 0 < 2 / (PI * M_wh).
Proof.
  pose proof PI_pos as HPI.
  assert (Hd : 0 < PI * M_wh) by (apply Rmult_lt_0_compat; assumption).
  split.
  - field. lra.
  - apply Rdiv_lt_0_compat; lra.
Qed.

Lemma throat_x_collar (l0 : R) : Rabs l0 <= a -> throat_x a M_wh l0 = 0.
Proof.
  intros Hl. unfold throat_x.
  destruct (throat_quot_sign l0) as [-> Hk].
  apply Rmax_left. nra.
Qed.

Lemma throat_x_outside (l0 : R) :
  a < Rabs l0 ->
  throat_x a M_wh l0 = (Rabs l0 - a) * (2 / (PI * M_wh))
  /\ 0 < throat_x a M_wh l0.
Proof.
  intros Hl. unfold throat_x.
  destruct (throat_quot_sign l0) as [-> Hk].
  rewrite Rmax_right by nra.
  split; [reflexivity | nra].
Qed.

Lemma LtoR_collar (l0 : R) : Rabs l0 <= a -> LtoR rho a M_wh l0 = rho.
Proof.
  intros Hl. rewrite LtoR_flare, throat_x_collar, flare_0 by assumption. ring.
Qed.

Lemma LtoDR_collar (l0 : R) : Rabs l0 <= a -> LtoDR a M_wh l0 = 0.
Proof.
  intros Hl. rewrite LtoDR_throat, throat_x_collar, atan_0 by assumption.
  unfold Rdiv. ring.
Qed.

Lemma LtoR_above (l0 : R) : a < Rabs l0 -> rho < LtoR rho a M_wh l0.
Proof.
  intros Hl. rewrite LtoR_flare.
  destruct (throat_x_outside l0 Hl) as [_ Hx].
  pose proof (flare_pos _ Hx). nra.
Qed.

Lemma LtoR_ge_rho (l0 : R) : rho <= LtoR rho a M_wh l0.
Proof.
  destruct (Rle_lt_dec (Rabs l0) a) as [Hin | Hout].
  - rewrite LtoR_collar by assumption. lra.
  - left. apply LtoR_above. assumption.
Qed.

(** Outside the collar the radius grows strictly with [|l|]. *)
Lemma LtoR_strict_mono (l1 l2 : R) :
  Rabs l1 < Rabs l2 -> a < Rabs l2 ->
  LtoR rho a M_wh l1 < LtoR rho a M_wh l2.
Proof.
  intros H12 H2.
  destruct (Rle_lt_dec (Rabs l1) a) as [Hin | Hout].
  - rewrite (LtoR_collar l1 Hin). apply LtoR_above. assumption.
  - rewrite !LtoR_flare.
    destruct (throat_x_outside l1 Hout) as [E1 P1].
    destruct (throat_x_outside l2 H2) as [E2 P2].
    destruct (throat_quot_sign l1) as [_ Hk].
    assert (Hlt : throat_x a M_wh l1 < throat_x a M_wh l2).
    { rewrite E1, E2. nra. }
    pose proof (flare_increasing _ _ (Rlt_le _ _ P1) Hlt). nra.
Qed.

Lemma LtoDR_pos (l0 : R) : a < Rabs l0 -> 0 < l0 -> 0 < LtoDR a M_wh l0.
Proof.
  intros Hl Hp. rewrite LtoDR_throat, sign_pos by assumption.
  destruct (throat_x_outside l0 Hl) as [_ Hx].
  assert (0 < atan (throat_x a M_wh l0)).
  { rewrite <- atan_0. apply atan_increasing. assumption. }
  pose proof PI_pos.
  apply Rdiv_lt_0_compat; [nra | assumption].
Qed.

End Metric.

(** ** The integration loop *)

Lemma last_cons_default {A : Type} (t : list A) (x d : A) :
  last (x :: t) d = last t x.
Proof.
  revert x d. induction t as [| y t IH]; intros x d.
  - reflexivity.
  - change (last (x :: y :: t) d) with (last (y :: t) d).
    rewrite (IH y d). symmetry. apply IH.
Qed.

Lemma Forall_last {A : Type} (P : A -> Prop) (t : list A) (d : A) :
  Forall P t -> P d -> P (last t d).
Proof.
  intros Ht. revert d. induction Ht as [| y t Hy Ht IH]; intros d Hd.
  - exact Hd.
  - rewrite last_cons_default. apply IH. exact Hy.
Qed.

Section Integrator.

Variables rho a M_wh : R.

Local Abbreviation stepM := (step rho a M_wh).
Local Abbreviation loopM := (loop rho a M_wh).
Local Abbreviation traceM := (trace rho a M_wh).

Lemma step_r (s : RayState) : r (stepM s) = LtoR rho a M_wh (l s).
Proof. reflexivity. Qed.

Lemma step_H (s : RayState) : H (stepM s) = H s.
Proof. reflexivity. Qed.

Lemma trace_S (n : nat) (st : RayState) :
  traceM (S n) st =
  stepM st :: (if Rgt_dec (Rabs (l (stepM st))) BOUNDARY
               then [] else traceM n (stepM st)).
Proof. reflexivity. Qed.

Lemma loop_S (n : nat) (st : RayState) :
  loopM (S n) st =
  if Rgt_dec (Rabs (l (stepM st))) BOUNDARY
  then stepM st else loopM n (stepM st).
Proof. reflexivity. Qed.

(** The loop leaves the locals as the last executed iteration set them. *)
Lemma loop_last_trace (n : nat) (st : RayState) :
  loopM n st = last (traceM n st) st.
Proof.
  revert st. induction n as [| n IH]; intros st.
  - reflexivity.
  - rewrite loop_S, trace_S, last_cons_default.
    destruct (Rgt_dec (Rabs (l (stepM st))) BOUNDARY).
    + reflexivity.
    + apply IH.
Qed.

Lemma trace_length_le (n : nat) (st : RayState) :
  (length (traceM n st) <= n)%nat.
Proof.
  revert st. induction n as [| n IH]; intros st.
  - simpl. lia.
  - rewrite trace_S.
    destruct (Rgt_dec (Rabs (l (stepM st))) BOUNDARY); simpl.
    + lia.
    + specialize (IH (stepM st)). lia.
Qed.

Lemma trace_length_pos (n : nat) (st : RayState) :
  (1 <= length (traceM (S n) st))%nat.
Proof. rewrite trace_S. simpl. lia. Qed.

(** Every iteration but the last one ended inside the boundary. *)
Lemma trace_inside (n : nat) (st : RayState) :
  Forall (fun s => Rabs (l s) <= BOUNDARY) (removelast (traceM n st)).
Proof.
  revert st. induction n as [| n IH]; intros st.
  - constructor.
  - rewrite trace_S.
    destruct (Rgt_dec (Rabs (l (stepM st))) BOUNDARY) as [Hout | Hin].
    + constructor.
    + specialize (IH (stepM st)).
      destruct (traceM n (stepM st)) as [| s t] eqn:E.
      * constructor.
      * change (removelast (stepM st :: s :: t))
          with (stepM st :: removelast (s :: t)).
        constructor; [lra | exact IH].
Qed.

(** The loop stops short of its cap only through the [break]. *)
Lemma trace_short_break (n : nat) (st : RayState) :
  length (traceM n st) = n \/ Rabs (l (loopM n st)) > BOUNDARY.
Proof.
  revert st. induction n as [| n IH]; intros st.
  - left. reflexivity.
  - rewrite trace_S, loop_S.
    destruct (Rgt_dec (Rabs (l (stepM st))) BOUNDARY) as [Hout | Hin].
    + right. exact Hout.
    + destruct (IH (stepM st)) as [E | B].
      * left. simpl. rewrite E. reflexivity.
      * right. exact B.
Qed.

(** The state after [k+1] iterations is [step] applied [k+1] times. *)
Lemma trace_iter (n : nat) (st : RayState) :
  traceM n st =
  map (fun k => Nat.iter (S k) stepM st) (seq 0 (length (traceM n st))).
Proof.
  revert st. induction n as [| n IH]; intros st.
  - reflexivity.
  - rewrite trace_S.
    destruct (Rgt_dec (Rabs (l (stepM st))) BOUNDARY) as [Hout | Hin].
    + reflexivity.
    + cbn [length seq map]. f_equal.
      rewrite <- seq_shift, map_map.
      rewrite (IH (stepM st)) at 1.
      apply map_ext. intros k.
      symmetry. apply Nat.iter_succ_r.
Qed.

Lemma loop_iter (n : nat) (st : RayState) :
  loopM n st = Nat.iter (length (traceM n st)) stepM st.
Proof.
  revert st. induction n as [| n IH]; intros st.
  - reflexivity.
  - rewrite loop_S, trace_S.
    destruct (Rgt_dec (Rabs (l (stepM st))) BOUNDARY) as [Hout | Hin].
    + reflexivity.
    + rewrite IH. cbn [length].
      symmetry. apply Nat.iter_succ_r.
Qed.

Lemma trace_H (n : nat) (st : RayState) :
  Forall (fun s => H s = H st) (traceM n st).
Proof.
  revert st. induction n as [| n IH]; intros st.
  - constructor.
  - rewrite trace_S. constructor; [apply step_H |].
    destruct (Rgt_dec (Rabs (l (stepM st))) BOUNDARY); [constructor |].
    exact (IH (stepM st)).
Qed.

Lemma loop_H (n : nat) (st : RayState) : H (loopM n st) = H st.
Proof.
  revert st. induction n as [| n IH]; intros st.
  - reflexivity.
  - rewrite loop_S.
    destruct (Rgt_dec (Rabs (l (stepM st))) BOUNDARY); [apply step_H |].
    rewrite IH. apply step_H.
Qed.

(** The radius held after any iteration comes from [LtoR]. *)
Lemma trace_r (n : nat) (st : RayState) :
  Forall (fun s => exists l0, r s = LtoR rho a M_wh l0) (traceM n st).
Proof.
  revert st. induction n as [| n IH]; intros st.
  - constructor.
  - rewrite trace_S. constructor.
    + exists (l st). apply step_r.
    + destruct (Rgt_dec (Rabs (l (stepM st))) BOUNDARY); [constructor |].
      exact (IH (stepM st)).
Qed.

Lemma loop_r (n : nat) (st : RayState) :
  exists l0, r (loopM (S n) st) = LtoR rho a M_wh l0.
Proof.
  rewrite loop_last_trace, trace_S, last_cons_default.
  apply Forall_last.
  - destruct (Rgt_dec (Rabs (l (stepM st))) BOUNDARY); [constructor |].
    apply trace_r.
  - exists (l st). apply step_r.
Qed.

End Integrator.

(** ** The metric: radius floor and flat collar *)

(** C10. On the flat collar [|l| <= a] the clamp makes [x = 0], so
    [LtoR l] is exactly [rho] and [LtoDR l] is exactly [0]; and
    [LtoDR 0 = 0], with no directional bias at the centre. *)
Theorem flat_collar_exact (rho a M_wh : R) (M_pos : 0 < M_wh) :
  (forall l0 : R, Rabs l0 <= a ->
     Rmax 0 (2 * (Rabs l0 - a) / (PI * M_wh)) = 0
     /\ LtoR rho a M_wh l0 = rho
     /\ LtoDR a M_wh l0 = 0)
  /\ LtoDR a M_wh 0 = 0.
Proof.
  split.
  - intros l0 Hin. repeat split.
    + apply (throat_x_collar a M_wh M_pos l0 Hin).
    + apply LtoR_collar; assumption.
    + apply LtoDR_collar; assumption.
  - apply LtoDR_0.
Qed.

(** ** The integrator *)

(** C3. One iteration reads [r = LtoR l] and [dr = LtoDR l] at the
    pre-update [l], then advances [l += dl*DT], [phi += (H/r^2)*DT],
    [dl += H^2*dr/r^3*DT] from the pre-update values (one explicit Euler
    sub-step), and every executed iteration of the loop is this update:
    the state after iteration [k+1] is the update applied [k+1] times. *)
Theorem step_explicit_euler (rho a M_wh : R) (n : nat) (st : RayState) :
  (forall s : RayState,
     let r0 := LtoR rho a M_wh (l s) in
     let dr := LtoDR a M_wh (l s) in
     step rho a M_wh s =
     mkRay (l s + dl s * DT) r0
           (dl s + H s ^ 2 * dr / r0 ^ 3 * DT)
           (H s)
           (phi s + H s / r0 ^ 2 * DT))
  /\ trace rho a M_wh n st =
     map (fun k => Nat.iter (S k) (step rho a M_wh) st)
         (seq 0 (iterations rho a M_wh n st))
  /\ loop rho a M_wh n st =
     Nat.iter (iterations rho a M_wh n st) (step rho a M_wh) st.
Proof.
  split; [| split].
  - intros s r0 dr. unfold step. fold r0. fold dr.
    replace (r0 ^ 3) with (r0 * r0 * r0) by ring.
    replace (r0 ^ 2) with (r0 * r0) by ring.
    replace (H s ^ 2) with (H s * H s) by ring.
    reflexivity.
  - apply trace_iter.
  - apply loop_iter.
Qed.

(** C6. From any initial state the loop runs at most [MAX_STEPS]
    iterations (and at least one), every iteration before the last one
    ended with [|l| <= BOUNDARY], and the loop stops before [MAX_STEPS]
    only with [|l| > BOUNDARY]; being a structural recursion on the
    remaining iteration count, it always returns. *)
Theorem loop_bounded_termination (rho a M_wh : R) (st : RayState) :
  (1 <= iterations rho a M_wh MAX_STEPS st <= MAX_STEPS)%nat
  /\ loop rho a M_wh MAX_STEPS st = last (trace rho a M_wh MAX_STEPS st) st
  /\ Forall (fun s => Rabs (l s) <= BOUNDARY)
            (removelast (trace rho a M_wh MAX_STEPS st))
  /\ (iterations rho a M_wh MAX_STEPS st = MAX_STEPS
      \/ Rabs (l (loop rho a M_wh MAX_STEPS st)) > BOUNDARY).
Proof.
  repeat split.
  - apply trace_length_pos.
  - apply trace_length_le.
  - apply loop_last_trace.
  - apply trace_inside.
  - apply trace_short_break.
Qed.

(** C7. With [rho > 0] (and [M_wh > 0]), for every initial state, [H]
    zero or not, the radius used by each executed iteration satisfies
    [r >= rho], so its divisors [r*r] and [r*r*r] are strictly positive,
    and the radius divided by in the exit reconstruction is at least
    [rho] and strictly positive too. *)
Theorem divisors_strictly_positive
  (rho a M_wh : R) (rho_pos : 0 < rho) (M_pos : 0 < M_wh) (st : RayState) :
  Forall (fun s => rho <= r s /\ 0 < r s * r s /\ 0 < r s * r s * r s)
         (trace rho a M_wh MAX_STEPS st)
  /\ rho <= r (loop rho a M_wh MAX_STEPS st)
  /\ 0 < r (loop rho a M_wh MAX_STEPS st).
Proof.
  split.
  - eapply Forall_impl; [| apply trace_r].
    intros s [l0 E]. cbv beta. rewrite E.
    pose proof (LtoR_ge_rho rho a M_wh M_pos l0) as Hge.
    assert (Hp : 0 < LtoR rho a M_wh l0) by lra.
    repeat split.
    + exact Hge.
    + apply Rmult_lt_0_compat; assumption.
    + repeat apply Rmult_lt_0_compat; assumption.
  - destruct (loop_r rho a M_wh (pred MAX_STEPS) st) as [l0 E].
    change (S (pred MAX_STEPS)) with MAX_STEPS in E.
    rewrite E.
    pose proof (LtoR_ge_rho rho a M_wh M_pos l0) as Hge.
    split; lra.
Qed.

(** C8. [H] is conserved by a whole integration run of any length: the
    value after the loop equals the value before it, and so does the
    value after every single iteration. *)
Theorem H_conserved (rho a M_wh : R) (n : nat) (st : RayState) :
  H (loop rho a M_wh n st) = H st
  /\ Forall (fun s => H s = H st) (trace rho a M_wh n st)
  /\ (forall s : RayState, H (step rho a M_wh s) = H s).
Proof.
  split; [| split].
  - apply loop_H.
  - apply trace_H.
  - intros s. reflexivity.
Qed.

Lemma flat_collar_exact_witness :
  0 < WORMHOLE_M /\ Rabs 1 <= WORMHOLE_A
  /\ LtoR WORMHOLE_RHO WORMHOLE_A WORMHOLE_M 1 = WORMHOLE_RHO
  /\ LtoDR WORMHOLE_A WORMHOLE_M 1 = 0.
Proof.
  assert (HM : 0 < WORMHOLE_M) by (unfold WORMHOLE_M; lra).
  assert (Hin : Rabs 1 <= WORMHOLE_A).
  { unfold WORMHOLE_A. rewrite Rabs_R1. lra. }
  split; [exact HM |]. split; [exact Hin |].
  destruct (flat_collar_exact WORMHOLE_RHO WORMHOLE_A WORMHOLE_M HM)
    as [Hcollar _].
  destruct (Hcollar 1 Hin) as [_ Hboth]. exact Hboth.
Defined.

Lemma divisors_strictly_positive_witness :
  0 < WORMHOLE_RHO /\ 0 < WORMHOLE_M
  /\ 0 < r (loop WORMHOLE_RHO WORMHOLE_A WORMHOLE_M MAX_STEPS
              (mkRay 15 15 1 0 0)).
Proof.
  assert (Hrho : 0 < WORMHOLE_RHO) by (unfold WORMHOLE_RHO; lra).
  assert (HM : 0 < WORMHOLE_M) by (unfold WORMHOLE_M; lra).
  split; [exact Hrho |]. split; [exact HM |].
  destruct (divisors_strictly_positive WORMHOLE_RHO WORMHOLE_A WORMHOLE_M
              Hrho HM (mkRay 15 15 1 0 0)) as [_ [_ Hr]].
  exact Hr.
Defined.

(** ** Vectors and the reference frames *)

Lemma length3_axis (z : R) : 0 <= z -> length3 (mkVec3 0 0 z) = z.
Proof.
  intros Hz. unfold length3. cbn [x3 y3 z3].
  replace (0 * 0 + 0 * 0 + z * z) with (z * z) by ring.
  apply sqrt_square. exact Hz.
Qed.

Lemma length3_sqr (v : vec3) :
  length3 v * length3 v = x3 v * x3 v + y3 v * y3 v + z3 v * z3 v.
Proof.
  unfold length3. apply sqrt_sqrt.
  pose proof (Rle_0_sqr (x3 v)). pose proof (Rle_0_sqr (y3 v)).
  pose proof (Rle_0_sqr (z3 v)). unfold Rsqr in *. lra.
Qed.

Lemma length3_pos (v : vec3) :
  0 < x3 v * x3 v + y3 v * y3 v + z3 v * z3 v -> 0 < length3 v.
Proof. intros Hv. unfold length3. apply sqrt_lt_R0. exact Hv. Qed.

Lemma length2_sqr (v : vec2) :
  length2 v * length2 v = x2 v * x2 v + y2 v * y2 v.
Proof.
  unfold length2. apply sqrt_sqrt.
  pose proof (Rle_0_sqr (x2 v)). pose proof (Rle_0_sqr (y2 v)).
  unfold Rsqr in *. lra.
Qed.

Lemma length2_pos (v : vec2) :
  0 < x2 v * x2 v + y2 v * y2 v -> 0 < length2 v.
Proof. intros Hv. unfold length2. apply sqrt_lt_R0. exact Hv. Qed.

(** A quarter turn of yaw at level pitch gives the frame [looking_out]. *)
Lemma frame_looking_out (camera_pos : vec3) (time : R) :
  frame_uniforms camera_pos (Rtrigo1.PI / 2) 0 time
  = looking_out camera_pos time.
Proof.
  unfold frame_uniforms, looking_out.
  rewrite cos_PI2, sin_PI2, cos_0, sin_0.
  assert (Hc : cross (mkVec3 (0 * 1) 0 (1 * 1)) (mkVec3 0 1 0)
               = mkVec3 (-1) 0 0).
  { unfold cross. cbn [x3 y3 z3]. f_equal; ring. }
  rewrite Hc.
  assert (Hn : normalize3 (mkVec3 (-1) 0 0) = mkVec3 (-1) 0 0).
  { unfold normalize3, length3. cbn [x3 y3 z3].
    replace (-1 * -1 + 0 * 0 + 0 * 0) with 1 by ring.
    rewrite sqrt_1. f_equal; field. }
  rewrite Hn. unfold cross. cbn [x3 y3 z3].
  f_equal; f_equal; ring.
Qed.

(** The start-up orientation, [yaw = radians(-90)], gives [looking_in]. *)
Lemma frame_looking_in (camera_pos : vec3) (time : R) :
  frame_uniforms camera_pos (- (Rtrigo1.PI / 2)) 0 time
  = looking_in camera_pos time.
Proof.
  unfold frame_uniforms, looking_in.
  rewrite cos_neg, sin_neg, cos_PI2, sin_PI2, cos_0, sin_0.
  assert (Hc : cross (mkVec3 (0 * 1) 0 (- (1) * 1)) (mkVec3 0 1 0)
               = mkVec3 1 0 0).
  { unfold cross. cbn [x3 y3 z3]. f_equal; ring. }
  rewrite Hc.
  assert (Hn : normalize3 (mkVec3 1 0 0) = mkVec3 1 0 0).
  { unfold normalize3, length3. cbn [x3 y3 z3].
    replace (1 * 1 + 0 * 0 + 0 * 0) with 1 by ring.
    rewrite sqrt_1. f_equal; field. }
  rewrite Hn. unfold cross. cbn [x3 y3 z3].
  f_equal; f_equal; ring.
Qed.

(** At the screen centre the ray of [looking_out] is the +z axis. *)
Lemma ray_dir_centre_out (camera_pos : vec3) (time : R) :
  uv_of (looking_out camera_pos time) screen_centre = mkVec2 0 0
  /\ ray_dir_of (looking_out camera_pos time) screen_centre = mkVec3 0 0 1.
Proof.
  assert (Huv : uv_of (looking_out camera_pos time) screen_centre
                = mkVec2 0 0).
  { unfold uv_of, looking_out, screen_centre, WINDOW_SIZE.
    cbn [u_resolution x2 y2]. f_equal; field. }
  split; [exact Huv |].
  unfold ray_dir_of. rewrite Huv.
  unfold looking_out, ZOOM, add3, scale3.
  cbn [u_camera_fwd u_camera_right u_camera_up x2 y2 x3 y3 z3].
  replace (1 * 0 + 0 * -1 + 0 * 0) with 0 by ring.
  replace (1 * 0 + 0 * 0 + 0 * 1) with 0 by ring.
  replace (1 * 1 + 0 * 0 + 0 * 0) with 1 by ring.
  unfold normalize3. rewrite length3_axis by lra.
  cbn [x3 y3 z3]. f_equal; field.
Qed.

Lemma init_state_centre_out (z time : R) :
  0 <= z ->
  init_state (looking_out (mkVec3 0 0 z) time) screen_centre
  = mkRay z z 1 0 0.
Proof.
  intros Hz. unfold init_state.
  destruct (ray_dir_centre_out (mkVec3 0 0 z) time) as [_ ->].
  cbn [looking_out u_camera_pos x3 y3 z3 xy].
  rewrite length3_axis by exact Hz.
  unfold length2, xy. cbn [x2 y2 x3 y3].
  replace (0 * 0 + 0 * 0) with 0 by ring.
  rewrite sqrt_0. f_equal. ring.
Qed.

(** ** Rays along the axis *)

Section Axial.

Variables rho a M_wh : R.

(** With [H = 0] an iteration only moves [l]. *)
Lemma axial_step (l0 r0 : R) :
  step rho a M_wh (mkRay l0 r0 1 0 0)
  = mkRay (l0 + DT) (LtoR rho a M_wh l0) 1 0 0.
Proof.
  unfold step. cbn [l r dl H phi]. f_equal; unfold Rdiv; ring.
Qed.

(** An outward axial ray that stays inside the boundary for [n] steps
    uses all [n] iterations and advances by [DT] in each. *)
Lemma axial_run (n : nat) :
  forall l0 r0 : R,
    0 <= l0 -> l0 + INR n * DT <= BOUNDARY ->
    length (trace rho a M_wh n (mkRay l0 r0 1 0 0)) = n
    /\ Forall (fun s => phi s = 0 /\ Rabs (l s) <= BOUNDARY)
              (trace rho a M_wh n (mkRay l0 r0 1 0 0))
    /\ exists r1 : R,
         loop rho a M_wh n (mkRay l0 r0 1 0 0)
         = mkRay (l0 + INR n * DT) r1 1 0 0.
Proof.
  induction n as [| n IH]; intros l0 r0 Hl0 Hend.
  - split; [reflexivity |]. split; [constructor |].
    exists r0. simpl. f_equal. ring.
  - rewrite S_INR in Hend.
    pose proof (pos_INR n) as Hn.
    assert (HDT : 0 < DT) by (unfold DT; lra).
    assert (Hstep : 0 <= l0 + DT <= BOUNDARY) by nra.
    rewrite trace_S, loop_S, axial_step. cbn [l].
    assert (Habs : Rabs (l0 + DT) <= BOUNDARY).
    { rewrite Rabs_pos_eq; lra. }
    destruct (Rgt_dec (Rabs (l0 + DT)) BOUNDARY) as [Hout | _]; [lra |].
    destruct (IH (l0 + DT) (LtoR rho a M_wh l0)) as [Hlen [Hall [r1 Hloop]]].
    + lra.
    + lra.
    + split; [simpl; rewrite Hlen; reflexivity |].
      split.
      * constructor; [cbn [phi l]; split; [reflexivity | exact Habs] |].
        exact Hall.
      * exists r1. rewrite Hloop, S_INR. f_equal. ring.
Qed.

End Axial.

Lemma INR_MAX_STEPS : INR MAX_STEPS = 500.
Proof.
  rewrite INR_IZR_INZ. change (Z.of_nat MAX_STEPS) with 500%Z. reflexivity.
Qed.

(** The axial ray from [l = 15]: all 500 iterations, ending at [l = 40]. *)
Lemma axial_run_15 (rho a M_wh r0 : R) :
  length (trace rho a M_wh MAX_STEPS (mkRay 15 r0 1 0 0)) = MAX_STEPS
  /\ Forall (fun s => phi s = 0 /\ Rabs (l s) <= BOUNDARY)
            (trace rho a M_wh MAX_STEPS (mkRay 15 r0 1 0 0))
  /\ exists r1 : R,
       loop rho a M_wh MAX_STEPS (mkRay 15 r0 1 0 0) = mkRay 40 r1 1 0 0.
Proof.
  destruct (axial_run rho a M_wh MAX_STEPS 15 r0) as [Hlen [Hall [r1 Hloop]]].
  - lra.
  - rewrite INR_MAX_STEPS. unfold DT, BOUNDARY. lra.
  - split; [exact Hlen |]. split; [exact Hall |].
    exists r1. rewrite Hloop, INR_MAX_STEPS. f_equal. unfold DT. lra.
Qed.

Lemma select_env_nonneg (time : R) (st : RayState) (final_dir : vec3) :
  0 <= l st ->
  select_env time st final_dir
  = texture u_skybox_a (mulMV (rotationY (time * FLOW_SPEED)) final_dir).
Proof.
  intros Hl. unfold select_env.
  destruct (Rge_dec (l st) 0) as [_ | Hn]; [reflexivity | lra].
Qed.

Lemma select_env_neg (time : R) (st : RayState) (final_dir : vec3) :
  l st < 0 ->
  select_env time st final_dir
  = texture u_skybox_b
      (mulMV (rotationY (- time * FLOW_SPEED * (7 / 10))) final_dir).
Proof.
  intros Hl. unfold select_env.
  destruct (Rge_dec (l st) 0) as [Hp | _]; [lra | reflexivity].
Qed.

(** ** The straight-through scenario *)

(** C2, as the code behaves.  With [rho = 2], [a = 2], [M = 0.3], the
    camera at [(0,0,15)] looking along +z and the ray through the screen
    centre ([uv = (0,0)], so [l0 = 15], [dl0 = 1], [H0 = 0]): [phi] is [0]
    after every iteration, the loop runs all [MAX_STEPS = 500] iterations
    with [|l| <= BOUNDARY] after each of them, ends at [l = 40 > 0], and
    samples Environment A. *)
Theorem axial_ray_scenario (time : R) :
  let u := looking_out (mkVec3 0 0 15) time in
  let st0 := init_state u screen_centre in
  let tr := trace WORMHOLE_RHO WORMHOLE_A WORMHOLE_M MAX_STEPS st0 in
  let st := loop WORMHOLE_RHO WORMHOLE_A WORMHOLE_M MAX_STEPS st0 in
  uv_of u screen_centre = mkVec2 0 0
  /\ (l st0 = 15 /\ dl st0 = 1 /\ H st0 = 0 /\ phi st0 = 0)
  /\ Forall (fun s => phi s = 0) tr
  /\ phi st = 0
  /\ length tr = MAX_STEPS
  /\ Forall (fun s => Rabs (l s) <= BOUNDARY) tr
  /\ l st = 40
  /\ sampler (wormhole_main u screen_centre) = u_skybox_a.
Proof.
  intros u st0 tr st.
  assert (E0 : st0 = mkRay 15 15 1 0 0).
  { apply init_state_centre_out. lra. }
  destruct (axial_run_15 WORMHOLE_RHO WORMHOLE_A WORMHOLE_M 15)
    as [Hlen [Hall [r1 Hloop]]].
  assert (Est : st = mkRay 40 r1 1 0 0).
  { unfold st. rewrite E0. exact Hloop. }
  split; [apply ray_dir_centre_out |].
  split; [rewrite E0; cbn; repeat split; reflexivity |].
  split.
  { unfold tr. rewrite E0. eapply Forall_impl; [| exact Hall].
    intros s [Hphi _]. exact Hphi. }
  split; [rewrite Est; reflexivity |].
  split; [unfold tr; rewrite E0; exact Hlen |].
  split.
  { unfold tr. rewrite E0. eapply Forall_impl; [| exact Hall].
    intros s [_ Hb]. exact Hb. }
  split; [rewrite Est; reflexivity |].
  unfold wormhole_main, main. fold st0. fold st.
  rewrite select_env_nonneg; [reflexivity |].
  rewrite Est. cbn [l]. lra.
Qed.

(** C2 as stated fails: the run of the scenario does not end by exceeding
    [BOUNDARY]; after the last iteration [|l| = 40 <= 50]. *)
Lemma axial_ray_stays_inside_BOUNDARY :
  ~ Rabs (l (loop WORMHOLE_RHO WORMHOLE_A WORMHOLE_M MAX_STEPS
               (init_state (looking_out (mkVec3 0 0 15) 0) screen_centre)))
    > BOUNDARY.
Proof.
  rewrite init_state_centre_out by lra.
  destruct (axial_run_15 WORMHOLE_RHO WORMHOLE_A WORMHOLE_M 15)
    as [_ [_ [r1 Hloop]]].
  rewrite Hloop. cbn [l]. rewrite Rabs_pos_eq by lra.
  unfold BOUNDARY. lra.
Qed.

(** ** Seeding of the ray state *)

Lemma uv_pixel_640_360 (u : Uniforms) :
  u_resolution u = WINDOW_SIZE ->
  uv_of u pixel_640_360 = mkVec2 (1 / 720) (1 / 720).
Proof.
  intros Hres. unfold uv_of, pixel_640_360. rewrite Hres.
  unfold WINDOW_SIZE. cbn [x2 y2]. f_equal; field.
Qed.

Lemma ray_dir_pixel_in (camera_pos : vec3) (time : R) :
  ray_dir_of (looking_in camera_pos time) pixel_640_360
  = normalize3 (mkVec3 (1 / 720) (1 / 720) (-1)).
Proof.
  unfold ray_dir_of. rewrite uv_pixel_640_360 by reflexivity.
  unfold looking_in, ZOOM, add3, scale3.
  cbn [u_camera_fwd u_camera_right u_camera_up x2 y2 x3 y3 z3].
  f_equal. f_equal; field.
Qed.

Lemma ray_dir_pixel_out (camera_pos : vec3) (time : R) :
  ray_dir_of (looking_out camera_pos time) pixel_640_360
  = normalize3 (mkVec3 (- (1 / 720)) (1 / 720) 1).
Proof.
  unfold ray_dir_of. rewrite uv_pixel_640_360 by reflexivity.
  unfold looking_out, ZOOM, add3, scale3.
  cbn [u_camera_fwd u_camera_right u_camera_up x2 y2 x3 y3 z3].
  f_equal. f_equal; field.
Qed.

(** A normalised vector keeps a transverse part when it had one. *)
Lemma length2_xy_normalize3_pos (v : vec3) :
  x3 v <> 0 -> 0 < length2 (xy (normalize3 v)).
Proof.
  intros Hx.
  assert (Hxx : 0 < x3 v * x3 v) by nra.
  pose proof (Rle_0_sqr (y3 v)) as Hyy.
  pose proof (Rle_0_sqr (z3 v)) as Hzz. unfold Rsqr in Hyy, Hzz.
  assert (Hn : 0 < length3 v) by (apply length3_pos; lra).
  apply length2_pos. unfold normalize3, xy. cbn [x2 y2 x3 y3].
  assert (Hinv : 0 < / length3 v) by (apply Rinv_0_lt_compat; exact Hn).
  unfold Rdiv.
  pose proof (Rle_0_sqr (y3 v * / length3 v)) as Hq. unfold Rsqr in Hq.
  assert (Hp : 0 < (x3 v * / length3 v) * (x3 v * / length3 v)).
  { replace (x3 v * / length3 v * (x3 v * / length3 v))
      with ((x3 v * x3 v) * (/ length3 v * / length3 v)) by ring.
    apply Rmult_lt_0_compat; [exact Hxx |].
    apply Rmult_lt_0_compat; exact Hinv. }
  lra.
Qed.

(** C1, as the code behaves.  For every pixel the loop is entered with
    [l0 = camera.position.z], [dl0 = dir.z], [phi0 = 0] and
    [H0 = r0 * |dir.xy|] where [r0 = length(camera.position)], the distance
    of the camera from the origin (not [LtoR l0]); this is the [H] the whole
    integration carries, and it agrees with [LtoR l0 * |dir.xy|] only when
    the ray has no transverse part or the two radii happen to coincide. *)
Theorem init_state_seed
  (rho a M_wh : R) (u : Uniforms) (FragCoord : vec2) :
  l (init_state u FragCoord) = z3 (u_camera_pos u)
  /\ dl (init_state u FragCoord) = z3 (ray_dir_of u FragCoord)
  /\ r (init_state u FragCoord) = length3 (u_camera_pos u)
  /\ H (init_state u FragCoord)
     = length3 (u_camera_pos u) * length2 (xy (ray_dir_of u FragCoord))
  /\ phi (init_state u FragCoord) = 0
  /\ H (loop rho a M_wh MAX_STEPS (init_state u FragCoord))
     = length3 (u_camera_pos u) * length2 (xy (ray_dir_of u FragCoord))
  /\ (H (init_state u FragCoord)
      = LtoR rho a M_wh (l (init_state u FragCoord))
        * length2 (xy (ray_dir_of u FragCoord))
      <-> length2 (xy (ray_dir_of u FragCoord)) = 0
          \/ length3 (u_camera_pos u)
             = LtoR rho a M_wh (z3 (u_camera_pos u))).
Proof.
  do 5 (split; [reflexivity |]).
  split; [apply loop_H |].
  unfold init_state. cbn [H l].
  set (L := length2 (xy (ray_dir_of u FragCoord))).
  set (d := length3 (u_camera_pos u)).
  set (rr := LtoR rho a M_wh (z3 (u_camera_pos u))).
  split.
  - intros E. destruct (Req_dec L 0) as [HL | HL]; [left; exact HL |].
    right. apply (Rmult_eq_reg_r L); assumption.
  - intros [HL | Hd]; [rewrite HL; ring | rewrite Hd; reflexivity].
Qed.

(** C1 as stated fails: for the camera at [(0,0,1)], inside the collar,
    with the start-up orientation, the ray through the pixel centre
    [(640.5, 360.5)] gets [H0 = 1 * |dir.xy|], while
    [LtoR l0 * |dir.xy| = 2 * |dir.xy|] and [|dir.xy| > 0]. *)
Lemma init_state_H_is_not_LtoR_based :
  H (init_state (looking_in (mkVec3 0 0 1) 0) pixel_640_360)
  <> LtoR WORMHOLE_RHO WORMHOLE_A WORMHOLE_M
       (l (init_state (looking_in (mkVec3 0 0 1) 0) pixel_640_360))
     * length2 (xy (ray_dir_of (looking_in (mkVec3 0 0 1) 0) pixel_640_360)).
Proof.
  unfold init_state. cbn [H l looking_in u_camera_pos z3].
  rewrite length3_axis by lra.
  rewrite LtoR_collar.
  - rewrite ray_dir_pixel_in.
    assert (Hpos : 0 < length2 (xy (normalize3
                     (mkVec3 (1 / 720) (1 / 720) (-1))))).
    { apply length2_xy_normalize3_pos. cbn [x3]. lra. }
    unfold WORMHOLE_RHO. lra.
  - unfold WORMHOLE_M. lra.
  - unfold WORMHOLE_A. rewrite Rabs_R1. lra.
Qed.

(** ** Environment selection *)

Lemma rotationY_apply (angle : R) (v : vec3) :
  mulMV (rotationY angle) v
  = mkVec3 (cos angle * x3 v - sin angle * z3 v)
           (y3 v)
           (sin angle * x3 v + cos angle * z3 v).
Proof.
  unfold mulMV, rotationY, add3, scale3.
  cbn [col0 col1 col2 x3 y3 z3]. f_equal; ring.
Qed.

(** [rotationY angle] turns the heading in the x-z plane by [+angle], in
    the sense in which the camera's yaw is measured, and keeps y. *)
Lemma rotationY_heading (angle psi rad y : R) :
  mulMV (rotationY angle) (mkVec3 (rad * cos psi) y (rad * sin psi))
  = mkVec3 (rad * cos (psi + angle)) y (rad * sin (psi + angle)).
Proof.
  rewrite rotationY_apply. cbn [x3 y3 z3].
  rewrite cos_plus, sin_plus. f_equal; ring.
Qed.

(** C5. For every pixel the environment depends only on the sign of the
    final flare coordinate: if [l_final >= 0] Environment A is sampled
    along [final_dir] rotated about the vertical axis by
    [+time*FLOW_SPEED], otherwise Environment B along [final_dir] rotated
    by [-time*FLOW_SPEED*0.7]; the rotation keeps the vertical component
    and turns the horizontal heading by the given angle. *)
Theorem environment_by_final_sign
  (rho a M_wh : R) (u : Uniforms) (FragCoord : vec2) :
  let st := loop rho a M_wh MAX_STEPS (init_state u FragCoord) in
  let final_dir := final_dir_of a M_wh (ray_dir_of u FragCoord) st in
  ((l st >= 0
    /\ main rho a M_wh u FragCoord
       = texture u_skybox_a
           (mulMV (rotationY (u_time u * FLOW_SPEED)) final_dir))
   \/ (l st < 0
       /\ main rho a M_wh u FragCoord
          = texture u_skybox_b
              (mulMV (rotationY (- (u_time u * FLOW_SPEED * (7 / 10))))
                     final_dir)))
  /\ (forall angle psi rad y : R,
        mulMV (rotationY angle) (mkVec3 (rad * cos psi) y (rad * sin psi))
        = mkVec3 (rad * cos (psi + angle)) y (rad * sin (psi + angle))).
Proof.
  intros st final_dir. split; [| exact rotationY_heading].
  unfold main. fold st. fold final_dir.
  destruct (Rge_dec (l st) 0) as [Hp | Hn].
  - left. split; [exact Hp |].
    apply select_env_nonneg. lra.
  - right. assert (Hlt : l st < 0) by lra. split; [exact Hlt |].
    rewrite select_env_neg by exact Hlt.
    do 2 f_equal. f_equal. ring.
Qed.

(** ** Exit direction *)

Lemma normalize2_unit (v : vec2) :
  0 < length2 v ->
  x2 (normalize2 v) * x2 (normalize2 v)
  + y2 (normalize2 v) * y2 (normalize2 v) = 1.
Proof.
  intros Hn. unfold normalize2. cbn [x2 y2].
  pose proof (length2_sqr v) as Hs.
  replace (x2 v / length2 v * (x2 v / length2 v)
           + y2 v / length2 v * (y2 v / length2 v))
    with ((x2 v * x2 v + y2 v * y2 v) / (length2 v * length2 v))
    by (field; lra).
  rewrite <- Hs. field. lra.
Qed.

(** Two vectors with the same normalisation and positive lengths are
    parallel: their cross products vanish. *)
Lemma normalize3_eq_parallel (v w : vec3) :
  0 < length3 v -> 0 < length3 w ->
  normalize3 v = normalize3 w ->
  x3 v * z3 w = x3 w * z3 v /\ y3 v * z3 w = y3 w * z3 v.
Proof.
  intros Hv Hw E. unfold normalize3 in E.
  injection E as Ex Ey Ez.
  assert (Hx : x3 v * length3 w = x3 w * length3 v).
  { apply (f_equal (fun t => t * (length3 v * length3 w))) in Ex.
    field_simplify in Ex; lra. }
  assert (Hy : y3 v * length3 w = y3 w * length3 v).
  { apply (f_equal (fun t => t * (length3 v * length3 w))) in Ey.
    field_simplify in Ey; lra. }
  assert (Hz : z3 v * length3 w = z3 w * length3 v).
  { apply (f_equal (fun t => t * (length3 v * length3 w))) in Ez.
    field_simplify in Ez; lra. }
  split.
  - apply (Rmult_eq_reg_r (length3 v * length3 w)); [| nra].
    transitivity ((x3 v * length3 w) * (z3 w * length3 v)); [ring |].
    rewrite Hx, <- Hz. ring.
  - apply (Rmult_eq_reg_r (length3 v * length3 w)); [| nra].
    transitivity ((y3 v * length3 w) * (z3 w * length3 v)); [ring |].
    rewrite Hy, <- Hz. ring.
Qed.

Section ExitDirection.

Variables a M_wh : R.

(** [(dx, dy)] is [(dl*dr, H/r)] turned by [phi]. *)
Lemma exit_cross (l0 r1 r2 d h p : R) :
  exit_dx a M_wh (mkRay l0 r1 d h p) * exit_dy a M_wh (mkRay l0 r2 d h p)
  - exit_dx a M_wh (mkRay l0 r2 d h p) * exit_dy a M_wh (mkRay l0 r1 d h p)
  = d * LtoDR a M_wh l0 * (h / r2 - h / r1).
Proof.
  unfold exit_dx, exit_dy. cbn [l r dl H phi].
  pose proof (sin2_cos2 p) as Hsc. unfold Rsqr in Hsc.
  set (c := cos p) in *. set (s := sin p) in *.
  set (A := d * LtoDR a M_wh l0).
  set (B1 := h / r1). set (B2 := h / r2).
  replace ((A * c - B1 * s) * (A * s + B2 * c)
           - (A * c - B2 * s) * (A * s + B1 * c))
    with (A * (B2 - B1) * (s * s + c * c)) by ring.
  rewrite Hsc. ring.
Qed.

Lemma exit_norm (l0 r1 d h p : R) :
  exit_dx a M_wh (mkRay l0 r1 d h p) * exit_dx a M_wh (mkRay l0 r1 d h p)
  + exit_dy a M_wh (mkRay l0 r1 d h p) * exit_dy a M_wh (mkRay l0 r1 d h p)
  = (d * LtoDR a M_wh l0) * (d * LtoDR a M_wh l0) + (h / r1) * (h / r1).
Proof.
  unfold exit_dx, exit_dy. cbn [l r dl H phi].
  pose proof (sin2_cos2 p) as Hsc. unfold Rsqr in Hsc.
  set (c := cos p) in *. set (s := sin p) in *.
  set (A := d * LtoDR a M_wh l0). set (B1 := h / r1).
  replace ((A * c - B1 * s) * (A * c - B1 * s)
           + (A * s + B1 * c) * (A * s + B1 * c))
    with ((A * A + B1 * B1) * (s * s + c * c)) by ring.
  rewrite Hsc. ring.
Qed.

Lemma exit_vector_length_pos (ray_dir : vec3) (l0 r1 d h p : R) :
  length2 (xy ray_dir) > 1 / 100000 ->
  d * LtoDR a M_wh l0 <> 0 ->
  let s := mkRay l0 r1 d h p in
  let perp := scale2 (exit_dy a M_wh s) (initial_perp_dir ray_dir) in
  0 < length3 (mkVec3 (x2 perp) (y2 perp) (exit_dx a M_wh s)).
Proof.
  intros Hxy HA s perp. apply length3_pos. cbn [x3 y3 z3].
  unfold perp, scale2, initial_perp_dir. cbn [x2 y2].
  destruct (Rgt_dec (length2 (xy ray_dir)) (1 / 100000)) as [_ | Hn];
    [| lra].
  assert (Hu := normalize2_unit (xy ray_dir)).
  assert (HL : 0 < length2 (xy ray_dir)) by lra.
  specialize (Hu HL).
  set (px := x2 (normalize2 (xy ray_dir))) in *.
  set (py := y2 (normalize2 (xy ray_dir))) in *.
  pose proof (exit_norm l0 r1 d h p) as Hnorm. fold s in Hnorm.
  set (dx := exit_dx a M_wh s) in *. set (dy := exit_dy a M_wh s) in *.
  replace (dy * px * (dy * px) + dy * py * (dy * py) + dx * dx)
    with (dx * dx + dy * dy * (px * px + py * py)) by ring.
  rewrite Hu, Rmult_1_r, Hnorm.
  assert (0 < d * LtoDR a M_wh l0 * (d * LtoDR a M_wh l0)) by nra.
  pose proof (Rle_0_sqr (h / r1)) as Hq. unfold Rsqr in Hq. lra.
Qed.

(** Re-evaluating only [r] changes the exit direction as soon as the
    ray has a transverse part and [H/r] changes. *)
Lemma final_dir_depends_on_r (ray_dir : vec3) (l0 r1 r2 d h p : R) :
  length2 (xy ray_dir) > 1 / 100000 ->
  d * LtoDR a M_wh l0 <> 0 ->
  h / r1 <> h / r2 ->
  final_dir_of a M_wh ray_dir (mkRay l0 r1 d h p)
  <> final_dir_of a M_wh ray_dir (mkRay l0 r2 d h p).
Proof.
  intros Hxy HA HB E.
  pose proof (exit_vector_length_pos ray_dir l0 r1 d h p Hxy HA) as Hn1.
  pose proof (exit_vector_length_pos ray_dir l0 r2 d h p Hxy HA) as Hn2.
  cbv zeta in Hn1, Hn2.
  unfold final_dir_of in E.
  destruct (normalize3_eq_parallel _ _ Hn1 Hn2 E) as [Ex Ey].
  cbn [x3 y3 z3] in Ex, Ey.
  unfold scale2, initial_perp_dir in Ex, Ey. cbn [x2 y2] in Ex, Ey.
  destruct (Rgt_dec (length2 (xy ray_dir)) (1 / 100000)) as [_ | Hn];
    [| lra].
  assert (HL : 0 < length2 (xy ray_dir)) by lra.
  pose proof (normalize2_unit (xy ray_dir) HL) as Hu.
  set (px := x2 (normalize2 (xy ray_dir))) in *.
  set (py := y2 (normalize2 (xy ray_dir))) in *.
  pose proof (exit_cross l0 r1 r2 d h p) as Hc.
  set (dx1 := exit_dx a M_wh (mkRay l0 r1 d h p)) in *.
  set (dy1 := exit_dy a M_wh (mkRay l0 r1 d h p)) in *.
  set (dx2 := exit_dx a M_wh (mkRay l0 r2 d h p)) in *.
  set (dy2 := exit_dy a M_wh (mkRay l0 r2 d h p)) in *.
  assert (Hpar : dy1 * dx2 = dy2 * dx1).
  { replace (dy1 * dx2) with ((dy1 * dx2) * (px * px + py * py))
      by (rewrite Hu; ring).
    replace (dy2 * dx1) with ((dy2 * dx1) * (px * px + py * py))
      by (rewrite Hu; ring).
    replace (dy1 * dx2 * (px * px + py * py))
      with (px * (dy1 * px * dx2) + py * (dy1 * py * dx2)) by ring.
    rewrite Ex, Ey. ring. }
  assert (Hzero : d * LtoDR a M_wh l0 * (h / r2 - h / r1) = 0).
  { rewrite <- Hc. lra. }
  apply Rmult_integral in Hzero. destruct Hzero as [Hz | Hz]; lra.
Qed.

End ExitDirection.

Lemma final_dir_stale_r (rho a M_wh : R) (ray_dir : vec3) (st : RayState) :
  length2 (xy ray_dir) > 1 / 100000 ->
  dl st * LtoDR a M_wh (l st) <> 0 ->
  H st / r st <> H st / LtoR rho a M_wh (l st) ->
  final_dir_of a M_wh ray_dir st
  <> final_dir_of a M_wh ray_dir (refresh_r rho a M_wh st).
Proof.
  destruct st as [l0 r1 d h p]. unfold refresh_r. cbn [l r dl H phi].
  apply final_dir_depends_on_r.
Qed.

(** When the loop leaves through the [break] after an outward step, the
    radius it holds belongs to the previous flare coordinate and is
    smaller than the radius at the final one. *)
Lemma step_r_stale (rho a M_wh : R) (st : RayState) :
  0 < M_wh ->
  Rabs (l st) < Rabs (l (step rho a M_wh st)) ->
  a < Rabs (l (step rho a M_wh st)) ->
  r (step rho a M_wh st) < LtoR rho a M_wh (l (step rho a M_wh st)).
Proof.
  intros HM Hgrow Hout. rewrite step_r.
  apply LtoR_strict_mono; assumption.
Qed.

(** The ray of [looking_out] through the pixel centre (640.5, 360.5). *)

Lemma pixel_ray_norm_bounds :
  pixel_ray_norm * pixel_ray_norm = 518402 / 518400
  /\ 1 < pixel_ray_norm < 2.
Proof.
  assert (Hs : pixel_ray_norm * pixel_ray_norm = 518402 / 518400).
  { unfold pixel_ray_norm. rewrite length3_sqr. cbn [x3 y3 z3]. field. }
  assert (Hp : 0 < pixel_ray_norm).
  { unfold pixel_ray_norm. apply length3_pos. cbn [x3 y3 z3]. lra. }
  split; [exact Hs |]. split; nra.
Qed.

Lemma pixel_ray_out (camera_pos : vec3) (time : R) :
  ray_dir_of (looking_out camera_pos time) pixel_640_360
  = mkVec3 (- (1 / 720) / pixel_ray_norm) (1 / 720 / pixel_ray_norm)
           (1 / pixel_ray_norm).
Proof. rewrite ray_dir_pixel_out. reflexivity. Qed.

Lemma pixel_ray_transverse (camera_pos : vec3) (time : R) :
  1 / 1000
  < length2 (xy (ray_dir_of (looking_out camera_pos time) pixel_640_360)).
Proof.
  rewrite pixel_ray_out.
  destruct pixel_ray_norm_bounds as [Hs [Hlo Hhi]].
  set (L := length2 _).
  assert (HL2 : L * L = 2 / 518402).
  { unfold L. rewrite length2_sqr. unfold xy. cbn [x2 y2 x3 y3].
    replace (- (1 / 720) / pixel_ray_norm * (- (1 / 720) / pixel_ray_norm)
             + 1 / 720 / pixel_ray_norm * (1 / 720 / pixel_ray_norm))
      with (2 / 518400 / (pixel_ray_norm * pixel_ray_norm)) by (field; lra).
    rewrite Hs. field. }
  assert (HL0 : 0 <= L) by (unfold L, length2; apply sqrt_pos).
  nra.
Qed.

(** C4, at a failing input.  Camera at [(0,0,49.99)] looking along +z,
    pixel centre (640.5, 360.5), configured metric: the loop leaves through
    the [break] after one iteration with [l_final > 50]; the radius used by
    the reconstruction is [LtoR] at the camera's [l0 = 49.99], strictly
    smaller than [LtoR l_final]; [H > 0]; and the exit direction computed
    differs from the one obtained with [r] taken at [l_final]. *)
Theorem exit_radius_stale_on_escape :
  let u := looking_out (mkVec3 0 0 (4999 / 100)) 0 in
  let ray_dir := ray_dir_of u pixel_640_360 in
  let st0 := init_state u pixel_640_360 in
  let st := loop WORMHOLE_RHO WORMHOLE_A WORMHOLE_M MAX_STEPS st0 in
  l st0 = 4999 / 100
  /\ st = step WORMHOLE_RHO WORMHOLE_A WORMHOLE_M st0
  /\ BOUNDARY < l st
  /\ r st = LtoR WORMHOLE_RHO WORMHOLE_A WORMHOLE_M (l st0)
  /\ r st < LtoR WORMHOLE_RHO WORMHOLE_A WORMHOLE_M (l st)
  /\ 0 < H st
  /\ final_dir_of WORMHOLE_A WORMHOLE_M ray_dir st
     <> final_dir_of WORMHOLE_A WORMHOLE_M ray_dir
          (refresh_r WORMHOLE_RHO WORMHOLE_A WORMHOLE_M st).
Proof.
  intros u ray_dir st0 st.
  assert (HM : 0 < WORMHOLE_M) by (unfold WORMHOLE_M; lra).
  destruct pixel_ray_norm_bounds as [_ [Hlo Hhi]].
  pose proof (pixel_ray_transverse (mkVec3 0 0 (4999 / 100)) 0) as HL.
  fold u in HL. fold ray_dir in HL.
  assert (Hdl0 : dl st0 = 1 / pixel_ray_norm).
  { unfold st0, init_state. cbn [dl]. unfold u.
    rewrite pixel_ray_out. reflexivity. }
  assert (Hl0 : l st0 = 4999 / 100) by reflexivity.
  assert (HH0 : H st0 = 4999 / 100 * length2 (xy ray_dir)).
  { unfold st0, init_state. cbn [H]. fold ray_dir.
    unfold u. cbn [looking_out u_camera_pos].
    rewrite length3_axis by lra. reflexivity. }
  assert (Hinv : 1 / 2 < 1 / pixel_ray_norm <= 1).
  { assert (Hone : pixel_ray_norm * (1 / pixel_ray_norm) = 1)
      by (field; lra).
    split; nra. }
  set (st1 := step WORMHOLE_RHO WORMHOLE_A WORMHOLE_M st0).
  assert (Hl1 : l st1 = 4999 / 100 + 1 / pixel_ray_norm * DT).
  { unfold st1, step. cbn [l]. rewrite Hdl0, Hl0. reflexivity. }
  assert (Hl1b : BOUNDARY < l st1 <= 5004 / 100).
  { rewrite Hl1. unfold BOUNDARY, DT. lra. }
  assert (Habs1 : Rabs (l st1) = l st1).
  { apply Rabs_pos_eq. unfold BOUNDARY in Hl1b. lra. }
  assert (Est : st = st1).
  { unfold st. change MAX_STEPS with (S 499). rewrite loop_S. fold st1.
    destruct (Rgt_dec (Rabs (l st1)) BOUNDARY) as [_ | Hn];
      [reflexivity |].
    rewrite Habs1 in Hn. lra. }
  assert (Hr1 : r st1 = LtoR WORMHOLE_RHO WORMHOLE_A WORMHOLE_M (l st0)).
  { apply step_r. }
  assert (Hstale : r st1 < LtoR WORMHOLE_RHO WORMHOLE_A WORMHOLE_M (l st1)).
  { apply step_r_stale; fold st1.
    - exact HM.
    - rewrite Habs1, Hl0, Rabs_pos_eq by lra. unfold BOUNDARY in Hl1b. lra.
    - rewrite Habs1. unfold WORMHOLE_A, BOUNDARY in *. lra. }
  assert (HH1 : 0 < H st1).
  { unfold st1. rewrite step_H, HH0. lra. }
  assert (Hrge : WORMHOLE_RHO <= r st1).
  { rewrite Hr1. apply LtoR_ge_rho. exact HM. }
  rewrite Est.
  split; [exact Hl0 |]. split; [reflexivity |].
  split; [apply Hl1b |]. split; [exact Hr1 |]. split; [exact Hstale |].
  split; [exact HH1 |].
  apply final_dir_stale_r.
  - lra.
  - assert (Hdr0 : 0 < LtoDR WORMHOLE_A WORMHOLE_M (l st0)).
    { apply LtoDR_pos; [exact HM | |]; rewrite Hl0.
      - rewrite Rabs_pos_eq by lra. unfold WORMHOLE_A. lra.
      - lra. }
    assert (Hdr1 : 0 < LtoDR WORMHOLE_A WORMHOLE_M (l st1)).
    { apply LtoDR_pos; [exact HM | |].
      - rewrite Habs1. unfold WORMHOLE_A, BOUNDARY in *. lra.
      - unfold BOUNDARY in *. lra. }
    assert (Hdl1 : 0 < dl st1).
    { unfold st1, step. cbn [dl]. rewrite Hdl0.
      fold (step WORMHOLE_RHO WORMHOLE_A WORMHOLE_M st0) in *.
      assert (Hr0 : 0 < LtoR WORMHOLE_RHO WORMHOLE_A WORMHOLE_M (l st0)).
      { rewrite <- Hr1. unfold WORMHOLE_RHO in Hrge. lra. }
      assert (0 < H st0 * H st0 * LtoDR WORMHOLE_A WORMHOLE_M (l st0)
                  / (LtoR WORMHOLE_RHO WORMHOLE_A WORMHOLE_M (l st0)
                     * LtoR WORMHOLE_RHO WORMHOLE_A WORMHOLE_M (l st0)
                     * LtoR WORMHOLE_RHO WORMHOLE_A WORMHOLE_M (l st0))
                  * DT) as Hinc.
      { assert (HH0p : 0 < H st0) by (rewrite HH0; lra).
        apply Rmult_lt_0_compat; [| unfold DT; lra].
        apply Rdiv_lt_0_compat.
        - apply Rmult_lt_0_compat; [| exact Hdr0].
          apply Rmult_lt_0_compat; exact HH0p.
        - apply Rmult_lt_0_compat; [| exact Hr0].
          apply Rmult_lt_0_compat; exact Hr0. }
      lra. }
    apply Rgt_not_eq. apply Rmult_lt_0_compat; assumption.
  - assert (Hr1p : 0 < r st1) by (unfold WORMHOLE_RHO in Hrge; lra).
    apply Rgt_not_eq. unfold Rdiv.
    apply Rmult_lt_compat_l; [exact HH1 |].
    apply Rinv_lt_contravar; [| exact Hstale].
    apply Rmult_lt_0_compat; lra.
Qed.

(** Whatever the ray, the loop's last act is one [step]: the radius it
    leaves behind is [LtoR] at the flare coordinate before that step. *)
Lemma loop_last_step (rho a M_wh : R) (n : nat) (st : RayState) :
  exists sp : RayState,
    loop rho a M_wh (S n) st = step rho a M_wh sp
    /\ r (loop rho a M_wh (S n) st) = LtoR rho a M_wh (l sp)
    /\ l (loop rho a M_wh (S n) st) = l sp + dl sp * DT.
Proof.
  revert st. induction n as [| n IH]; intros st.
  - exists st. rewrite loop_S. cbn [loop].
    destruct (Rgt_dec (Rabs (l (step rho a M_wh st))) BOUNDARY);
      repeat split.
  - rewrite loop_S.
    destruct (Rgt_dec (Rabs (l (step rho a M_wh st))) BOUNDARY).
    + exists st. repeat split.
    + apply IH.
Qed.

(** What lines 148-158 compute, for every pixel: [dr] is taken at the
    final [l], the other quantities are the locals as the loop left them,
    and the transverse part is dropped when [|dir.xy| <= 1e-5]. *)
Lemma exit_direction_reconstruction
  (rho a M_wh : R) (ray_dir : vec3) (st : RayState) :
  let dr := LtoDR a M_wh (l st) in
  let dx := dl st * dr * cos (phi st) - H st / r st * sin (phi st) in
  let dy := dl st * dr * sin (phi st) + H st / r st * cos (phi st) in
  (length2 (xy ray_dir) > 1 / 100000
   /\ final_dir_of a M_wh ray_dir st
      = normalize3 (mkVec3 (dy * x2 (normalize2 (xy ray_dir)))
                           (dy * y2 (normalize2 (xy ray_dir))) dx))
  \/ (length2 (xy ray_dir) <= 1 / 100000
      /\ final_dir_of a M_wh ray_dir st
         = normalize3 (mkVec3 (dy * 0) (dy * 0) dx)).
Proof.
  intros dr dx dy. unfold final_dir_of, initial_perp_dir.
  destruct (Rgt_dec (length2 (xy ray_dir)) (1 / 100000)) as [Hg | Hn].
  - left. split; [exact Hg | reflexivity].
  - right. split; [lra | reflexivity].
Qed.

(** ** Further properties of the metric *)

Lemma sign_opp (x : R) : sign (- x) = - sign x.
Proof.
  destruct (Rtotal_order x 0) as [Hn | [Hz | Hp]].
  - rewrite (sign_neg x Hn), sign_pos by lra. ring.
  - subst x. rewrite Ropp_0, sign_0. ring.
  - rewrite (sign_pos x Hp), sign_neg by lra. ring.
Qed.

Lemma sign_range (x : R) : -1 <= sign x <= 1.
Proof.
  destruct (Rtotal_order x 0) as [Hn | [Hz | Hp]].
  - rewrite sign_neg by assumption. lra.
  - subst x. rewrite sign_0. lra.
  - rewrite sign_pos by assumption. lra.
Qed.

Lemma atan_nonneg (x : R) : 0 <= x -> 0 <= atan x.
Proof.
  intros [Hx | Hx].
  - left. rewrite <- atan_0. apply atan_increasing. exact Hx.
  - subst x. rewrite atan_0. lra.
Qed.

Lemma LtoR_abs (rho a M_wh l1 l2 : R) :
  Rabs l1 = Rabs l2 -> LtoR rho a M_wh l1 = LtoR rho a M_wh l2.
Proof. intros E. unfold LtoR. rewrite E. reflexivity. Qed.

Lemma LtoR_even (rho a M_wh l0 : R) :
  LtoR rho a M_wh (- l0) = LtoR rho a M_wh l0.
Proof. apply LtoR_abs. apply Rabs_Ropp. Qed.

Lemma LtoDR_odd (a M_wh l0 : R) :
  LtoDR a M_wh (- l0) = - LtoDR a M_wh l0.
Proof.
  unfold LtoDR. rewrite Rabs_Ropp, sign_opp. unfold Rdiv. ring.
Qed.

(** X1. Throat symmetry: [LtoR] is even and [LtoDR] is odd in [l]. *)
Theorem throat_symmetry (rho a M_wh l0 : R) :
  LtoR rho a M_wh (- l0) = LtoR rho a M_wh l0
  /\ LtoDR a M_wh (- l0) = - LtoDR a M_wh l0.
Proof. split; [apply LtoR_even | apply LtoDR_odd]. Qed.

(** X3. The slope [LtoDR l] has the sign of [l] and its magnitude stays
    strictly below [pi / PI], where [pi] is the true constant and [PI]
    the shader's literal. *)
Theorem LtoDR_sign_and_bound (a M_wh l0 : R) :
  (0 <= l0 /\ 0 <= LtoDR a M_wh l0 \/ l0 < 0 /\ LtoDR a M_wh l0 <= 0)
  /\ Rabs (LtoDR a M_wh l0) < Rtrigo1.PI / PI.
Proof.
  pose proof PI_pos as HPI.
  pose proof (throat_x_nonneg a M_wh l0) as Hx.
  pose proof (atan_nonneg _ Hx) as Hat.
  destruct (atan_bound (throat_x a M_wh l0)) as [_ Hub].
  assert (Hinv : 0 < / PI) by (apply Rinv_0_lt_compat; exact HPI).
  rewrite LtoDR_throat. unfold Rdiv.
  set (t := atan (throat_x a M_wh l0)) in *.
  split.
  - destruct (Rle_lt_dec 0 l0) as [[Hp | Hz] | Hn].
    + left. split; [lra |]. rewrite sign_pos by exact Hp.
      apply Rmult_le_pos; [lra | lra].
    + left. split; [lra |]. subst l0. rewrite sign_0. lra.
    + right. split; [exact Hn |]. rewrite sign_neg by exact Hn.
      assert (0 <= 2 * t * / PI) by (apply Rmult_le_pos; lra).
      lra.
  - pose proof (sign_range l0) as Hs.
    assert (Hq : 0 <= 2 * t * / PI) by (apply Rmult_le_pos; lra).
    assert (Hup : 2 * t * / PI < Rtrigo1.PI * / PI).
    { apply Rmult_lt_compat_r; [exact Hinv | lra]. }
    replace (2 * t * sign l0 * / PI) with ((2 * t * / PI) * sign l0) by ring.
    apply Rabs_def1; nra.
Qed.

(** X4. Linear growth: with [M_wh > 0] the radius never exceeds
    [rho + (pi / PI) * max(0, |l| - a)]. *)
Theorem LtoR_linear_bound
  (rho a M_wh : R) (M_pos : 0 < M_wh) (l0 : R) :
  LtoR rho a M_wh l0 <= rho + Rtrigo1.PI / PI * Rmax 0 (Rabs l0 - a).
Proof.
  pose proof PI_pos as HPI.
  destruct (Rle_lt_dec (Rabs l0) a) as [Hin | Hout].
  - rewrite LtoR_collar by assumption.
    rewrite Rmax_left by lra. lra.
  - rewrite Rmax_right by lra. rewrite LtoR_flare.
    destruct (throat_x_outside a M_wh M_pos l0 Hout) as [Ex Px].
    set (x := throat_x a M_wh l0) in *.
    destruct (atan_bound x) as [_ Hub].
    assert (Hat : 0 <= atan x) by (apply atan_nonneg; lra).
    assert (Hln : 0 <= ln (1 + x * x)).
    { rewrite <- ln_1. destruct (Req_dec (x * x) 0) as [E0 | N0].
      - rewrite E0, Rplus_0_r. lra.
      - left. apply ln_increasing; nra. }
    assert (Hfl : flare x <= x * (Rtrigo1.PI / 2)).
    { unfold flare. nra. }
    assert (HMx : M_wh * x = (Rabs l0 - a) * (2 / PI)).
    { rewrite Ex. field. lra. }
    assert (Hgoal : M_wh * flare x <= M_wh * x * (Rtrigo1.PI / 2)).
    { rewrite Rmult_assoc. apply Rmult_le_compat_l; lra. }
    rewrite HMx in Hgoal.
    replace (Rtrigo1.PI / PI * (Rabs l0 - a))
      with ((Rabs l0 - a) * (2 / PI) * (Rtrigo1.PI / 2)) by (field; lra).
    lra.
Qed.

Lemma LtoR_linear_bound_witness :
  0 < WORMHOLE_M
  /\ LtoR WORMHOLE_RHO WORMHOLE_A WORMHOLE_M 15
     <= WORMHOLE_RHO + Rtrigo1.PI / PI * Rmax 0 (Rabs 15 - WORMHOLE_A).
Proof.
  assert (HM : 0 < WORMHOLE_M) by (unfold WORMHOLE_M; lra).
  split; [exact HM |].
  apply (LtoR_linear_bound WORMHOLE_RHO WORMHOLE_A WORMHOLE_M HM 15).
Defined.

(** ** Further properties of the integrator *)

Section IntegratorFacts.

Variables rho a M_wh : R.

Local Abbreviation stepF := (step rho a M_wh).
Local Abbreviation loopF := (loop rho a M_wh).
Local Abbreviation traceF := (trace rho a M_wh).

Lemma step_zero_H (s : RayState) :
  H s = 0 ->
  l (stepF s) = l s + dl s * DT /\ dl (stepF s) = dl s
  /\ phi (stepF s) = phi s /\ H (stepF s) = 0.
Proof.
  intros HH. unfold step. cbn [l dl phi H]. rewrite HH.
  repeat split; unfold Rdiv; ring.
Qed.

Lemma zero_H_run (n : nat) :
  forall st : RayState,
    H st = 0 ->
    Forall (fun s => dl s = dl st /\ phi s = phi st) (traceF n st)
    /\ dl (loopF n st) = dl st /\ phi (loopF n st) = phi st
    /\ l (loopF n st) = l st + INR (length (traceF n st)) * (dl st * DT).
Proof.
  induction n as [| n IH]; intros st HH.
  - split; [constructor |]. cbn. repeat split. ring.
  - destruct (step_zero_H st HH) as [El [Edl [Ephi EH]]].
    rewrite trace_S, loop_S.
    destruct (Rgt_dec (Rabs (l (stepF st))) BOUNDARY) as [Hout | Hin].
    + split; [constructor; [split; assumption | constructor] |].
      split; [exact Edl |]. split; [exact Ephi |].
      rewrite El. cbn. ring.
    + destruct (IH (stepF st) EH) as [Hall [Hdl [Hphi Hl]]].
      split.
      * constructor; [split; assumption |].
        eapply Forall_impl; [| exact Hall].
        intros s [E1 E2]. cbv beta. rewrite E1, E2. split; assumption.
      * split; [rewrite Hdl; exact Edl |].
        split; [rewrite Hphi; exact Ephi |].
        rewrite Hl, El, Edl. cbn [length]. rewrite S_INR. ring.
Qed.

Hypothesis M_pos : 0 < M_wh.

Lemma step_collar (s : RayState) :
  Rabs (l s) <= a ->
  l (stepF s) = l s + dl s * DT /\ dl (stepF s) = dl s
  /\ H (stepF s) = H s
  /\ phi (stepF s) = phi s + H s / (rho * rho) * DT
  /\ r (stepF s) = rho.
Proof.
  intros Hcol. unfold step. cbn [l r dl H phi].
  rewrite (LtoR_collar rho a M_wh M_pos _ Hcol).
  rewrite (LtoDR_collar a M_wh M_pos _ Hcol).
  repeat split; unfold Rdiv; ring.
Qed.

Lemma collar_run (n : nat) (st : RayState) :
  (forall k : nat, (k < n)%nat -> Rabs (l st + INR k * (dl st * DT)) <= a) ->
  l (Nat.iter n stepF st) = l st + INR n * (dl st * DT)
  /\ dl (Nat.iter n stepF st) = dl st
  /\ H (Nat.iter n stepF st) = H st
  /\ phi (Nat.iter n stepF st)
     = phi st + INR n * (H st / (rho * rho) * DT).
Proof.
  induction n as [| n IH]; intros Hin.
  - cbn. repeat split; ring.
  - destruct IH as [El [Edl [EH Ephi]]].
    { intros k Hk. apply Hin. lia. }
    assert (Hcol : Rabs (l (Nat.iter n stepF st)) <= a).
    { rewrite El. apply Hin. lia. }
    change (Nat.iter (S n) stepF st) with (stepF (Nat.iter n stepF st)).
    destruct (step_collar _ Hcol) as [Sl [Sdl [SH [Sphi _]]]].
    rewrite Sl, Sdl, SH, Sphi, El, Edl, EH, Ephi, S_INR.
    repeat split; ring.
Qed.

Hypothesis rho_pos : 0 < rho.

Lemma LtoR_pos (l0 : R) : 0 < LtoR rho a M_wh l0.
Proof. pose proof (LtoR_ge_rho rho a M_wh M_pos l0). lra. Qed.

Lemma step_phi_le (s : RayState) : 0 <= H s -> phi s <= phi (stepF s).
Proof.
  intros HH. unfold step. cbn [phi].
  pose proof (LtoR_pos (l s)) as Hr.
  assert (0 <= H s / (LtoR rho a M_wh (l s) * LtoR rho a M_wh (l s)) * DT).
  { apply Rmult_le_pos; [| unfold DT; lra].
    apply Rmult_le_pos; [exact HH |].
    left. apply Rinv_0_lt_compat. apply Rmult_lt_0_compat; exact Hr. }
  lra.
Qed.

Lemma phi_run_le (n : nat) :
  forall st : RayState,
    0 <= H st ->
    Forall (fun s => phi st <= phi s) (traceF n st)
    /\ phi st <= phi (loopF n st).
Proof.
  induction n as [| n IH]; intros st HH.
  - split; [constructor | cbn; lra].
  - pose proof (step_phi_le st HH) as Hstep.
    rewrite trace_S, loop_S.
    destruct (Rgt_dec (Rabs (l (stepF st))) BOUNDARY) as [Hout | Hin].
    + split; [constructor; [exact Hstep | constructor] | exact Hstep].
    + destruct (IH (stepF st)) as [Hall Hfin].
      { rewrite step_H. exact HH. }
      split.
      * constructor; [exact Hstep |].
        eapply Forall_impl; [| exact Hall].
        intros s Hs. cbv beta in *. lra.
      * lra.
Qed.




End IntegratorFacts.

Lemma mirror_step (rho a M_wh : R) (s : RayState) :
  step rho a M_wh (mirror s) = mirror (step rho a M_wh s).
Proof.
  unfold step, mirror. cbn [l r dl H phi].
  rewrite (LtoR_even rho a M_wh (l s)), (LtoDR_odd a M_wh (l s)). f_equal; unfold Rdiv; ring.
Qed.

Lemma mirror_run (rho a M_wh : R) (n : nat) :
  forall st : RayState,
    loop rho a M_wh n (mirror st) = mirror (loop rho a M_wh n st)
    /\ trace rho a M_wh n (mirror st) = map mirror (trace rho a M_wh n st).
Proof.
  induction n as [| n IH]; intros st.
  - split; reflexivity.
  - rewrite !loop_S, !trace_S, mirror_step.
    assert (Eabs : Rabs (l (mirror (step rho a M_wh st)))
                   = Rabs (l (step rho a M_wh st))).
    { unfold mirror. cbn [l]. apply Rabs_Ropp. }
    rewrite Eabs.
    destruct (Rgt_dec (Rabs (l (step rho a M_wh st))) BOUNDARY).
    + split; reflexivity.
    + destruct (IH (step rho a M_wh st)) as [EL ET].
      split; [exact EL |]. cbn [map]. rewrite ET. reflexivity.
Qed.


Lemma init_state_H_nonneg (u : Uniforms) (FragCoord : vec2) :
  0 <= H (init_state u FragCoord).
Proof.
  unfold init_state. cbn [H].
  apply Rmult_le_pos; [unfold length3 | unfold length2]; apply sqrt_pos.
Qed.

(** X5. A ray with [H = 0] is not deflected: every iteration leaves [dl]
    and [phi] as they were, and the run ends at
    [l0 + iterations * dl0 * DT]. *)
Theorem zero_H_ray_is_straight
  (rho a M_wh : R) (n : nat) (st : RayState) (H_zero : H st = 0) :
  Forall (fun s => dl s = dl st /\ phi s = phi st) (trace rho a M_wh n st)
  /\ dl (loop rho a M_wh n st) = dl st
  /\ phi (loop rho a M_wh n st) = phi st
  /\ l (loop rho a M_wh n st)
     = l st + INR (iterations rho a M_wh n st) * (dl st * DT).
Proof. apply zero_H_run. exact H_zero. Qed.

Lemma zero_H_ray_is_straight_witness :
  H (mkRay (-3) 3 (1 / 2) 0 0) = 0
  /\ dl (loop WORMHOLE_RHO WORMHOLE_A WORMHOLE_M MAX_STEPS
           (mkRay (-3) 3 (1 / 2) 0 0)) = 1 / 2.
Proof.
  split; [reflexivity |].
  destruct (zero_H_ray_is_straight WORMHOLE_RHO WORMHOLE_A WORMHOLE_M
              MAX_STEPS (mkRay (-3) 3 (1 / 2) 0 0) eq_refl)
    as [_ [Hdl _]].
  exact Hdl.
Defined.

(** X6. Inside the flat collar the motion is uniform: as long as the
    first [n] positions [l0 + k*dl0*DT] lie in [|l| <= a], [n] iterations
    leave [dl] and [H] unchanged, advance [l] by [n*dl0*DT] and [phi] by
    [n*(H/rho^2)*DT]. *)
Theorem collar_uniform_motion
  (rho a M_wh : R) (M_pos : 0 < M_wh) (n : nat) (st : RayState)
  (Hin : forall k : nat, (k < n)%nat ->
           Rabs (l st + INR k * (dl st * DT)) <= a) :
  l (Nat.iter n (step rho a M_wh) st) = l st + INR n * (dl st * DT)
  /\ dl (Nat.iter n (step rho a M_wh) st) = dl st
  /\ H (Nat.iter n (step rho a M_wh) st) = H st
  /\ phi (Nat.iter n (step rho a M_wh) st)
     = phi st + INR n * (H st / (rho * rho) * DT).
Proof. apply collar_run; assumption. Qed.

Lemma collar_uniform_motion_witness :
  0 < WORMHOLE_M
  /\ (forall k : nat, (k < 2)%nat ->
        Rabs (l (mkRay 0 2 1 1 0) + INR k * (dl (mkRay 0 2 1 1 0) * DT))
        <= WORMHOLE_A)
  /\ phi (Nat.iter 2 (step WORMHOLE_RHO WORMHOLE_A WORMHOLE_M)
            (mkRay 0 2 1 1 0))
     = phi (mkRay 0 2 1 1 0)
       + INR 2 * (H (mkRay 0 2 1 1 0) / (WORMHOLE_RHO * WORMHOLE_RHO) * DT).
Proof.
  assert (HM : 0 < WORMHOLE_M) by (unfold WORMHOLE_M; lra).
  assert (Hin : forall k : nat, (k < 2)%nat ->
            Rabs (l (mkRay 0 2 1 1 0) + INR k * (dl (mkRay 0 2 1 1 0) * DT))
            <= WORMHOLE_A).
  { intros k Hk. cbn [l dl]. unfold DT, WORMHOLE_A.
    destruct k as [| [| k]]; [| | lia]; cbn [INR];
      rewrite Rabs_pos_eq; lra. }
  split; [exact HM |]. split; [exact Hin |].
  destruct (collar_uniform_motion WORMHOLE_RHO WORMHOLE_A WORMHOLE_M HM 2
              (mkRay 0 2 1 1 0) Hin) as [_ [_ [_ Hphi]]].
  exact Hphi.
Defined.

(** X7. The azimuth never runs backwards: the shader starts every ray
    with [H >= 0] and [phi = 0], and with [rho > 0], [M_wh > 0] the
    accumulated [phi] is non-negative after every iteration and at the
    end of the run. *)
Theorem azimuth_never_negative
  (rho a M_wh : R) (rho_pos : 0 < rho) (M_pos : 0 < M_wh)
  (u : Uniforms) (FragCoord : vec2) (n : nat) :
  0 <= H (init_state u FragCoord)
  /\ Forall (fun s => 0 <= phi s)
            (trace rho a M_wh n (init_state u FragCoord))
  /\ 0 <= phi (loop rho a M_wh n (init_state u FragCoord)).
Proof.
  pose proof (init_state_H_nonneg u FragCoord) as HH.
  split; [exact HH |].
  destruct (phi_run_le rho a M_wh M_pos rho_pos n (init_state u FragCoord) HH)
    as [Hall Hfin].
  split; assumption.
Qed.

Lemma azimuth_never_negative_witness :
  0 < WORMHOLE_RHO /\ 0 < WORMHOLE_M
  /\ 0 <= phi (loop WORMHOLE_RHO WORMHOLE_A WORMHOLE_M MAX_STEPS
                (init_state (looking_in (mkVec3 0 0 15) 0) pixel_640_360)).
Proof.
  assert (Hrho : 0 < WORMHOLE_RHO) by (unfold WORMHOLE_RHO; lra).
  assert (HM : 0 < WORMHOLE_M) by (unfold WORMHOLE_M; lra).
  split; [exact Hrho |]. split; [exact HM |].
  destruct (azimuth_never_negative WORMHOLE_RHO WORMHOLE_A WORMHOLE_M
              Hrho HM (looking_in (mkVec3 0 0 15) 0) pixel_640_360 MAX_STEPS)
    as [_ [_ Hphi]].
  exact Hphi.
Defined.





(** X10. The integrator treats the two sides alike: reflecting the
    initial state through the throat ([l], [dl] negated) reflects the
    state after every iteration and the final state, with the same number
    of iterations, the same [r], [H] and [phi]. *)
Theorem mirror_symmetry (rho a M_wh : R) (n : nat) (st : RayState) :
  step rho a M_wh (mirror st) = mirror (step rho a M_wh st)
  /\ loop rho a M_wh n (mirror st) = mirror (loop rho a M_wh n st)
  /\ trace rho a M_wh n (mirror st) = map mirror (trace rho a M_wh n st)
  /\ iterations rho a M_wh n (mirror st) = iterations rho a M_wh n st.
Proof.
  destruct (mirror_run rho a M_wh n st) as [EL ET].
  split; [apply mirror_step |]. split; [exact EL |]. split; [exact ET |].
  unfold iterations. rewrite ET. apply length_map.
Qed.

(** ** Further properties of rotations, normalisation and rays *)

Lemma length3_dot (v : vec3) : length3 v = sqrt (dot3 v v).
Proof. reflexivity. Qed.

Lemma rotationY_dot (angle : R) (v w : vec3) :
  dot3 (mulMV (rotationY angle) v) (mulMV (rotationY angle) w) = dot3 v w.
Proof.
  rewrite !rotationY_apply. unfold dot3. cbn [x3 y3 z3].
  pose proof (sin2_cos2 angle) as Hsc. unfold Rsqr in Hsc.
  set (c := cos angle) in *. set (s := sin angle) in *.
  replace ((c * x3 v - s * z3 v) * (c * x3 w - s * z3 w) + y3 v * y3 w
           + (s * x3 v + c * z3 v) * (s * x3 w + c * z3 w))
    with ((s * s + c * c) * (x3 v * x3 w + z3 v * z3 w) + y3 v * y3 w)
    by ring.
  rewrite Hsc. ring.
Qed.

Lemma rotationY_length (angle : R) (v : vec3) :
  length3 (mulMV (rotationY angle) v) = length3 v.
Proof. rewrite !length3_dot, rotationY_dot. reflexivity. Qed.

Lemma rotationY_compose (alpha beta : R) (v : vec3) :
  mulMV (rotationY alpha) (mulMV (rotationY beta) v)
  = mulMV (rotationY (alpha + beta)) v.
Proof.
  rewrite !rotationY_apply. cbn [x3 y3 z3].
  rewrite cos_plus, sin_plus. f_equal; ring.
Qed.

Lemma rotationY_zero (v : vec3) : mulMV (rotationY 0) v = v.
Proof.
  rewrite rotationY_apply, cos_0, sin_0. destruct v as [x y z].
  cbn [x3 y3 z3]. f_equal; ring.
Qed.

Lemma normalize3_length (v : vec3) :
  0 < length3 v -> length3 (normalize3 v) = 1.
Proof.
  intros Hn. pose proof (length3_sqr v) as Hs.
  unfold length3 at 1. unfold normalize3. cbn [x3 y3 z3].
  replace (x3 v / length3 v * (x3 v / length3 v)
           + y3 v / length3 v * (y3 v / length3 v)
           + z3 v / length3 v * (z3 v / length3 v))
    with ((x3 v * x3 v + y3 v * y3 v + z3 v * z3 v)
          / (length3 v * length3 v)) by (field; lra).
  rewrite <- Hs.
  replace (length3 v * length3 v / (length3 v * length3 v)) with 1
    by (field; lra).
  apply sqrt_1.
Qed.

Lemma length3_nonzero (v : vec3) : v <> mkVec3 0 0 0 -> 0 < length3 v.
Proof.
  intros Hv. apply length3_pos. destruct v as [x y z]. cbn [x3 y3 z3].
  pose proof (Rle_0_sqr x) as Hx. pose proof (Rle_0_sqr y) as Hy.
  pose proof (Rle_0_sqr z) as Hz. unfold Rsqr in *.
  destruct (Req_dec x 0) as [Ex | Nx]; [| nra].
  destruct (Req_dec y 0) as [Ey | Ny]; [| nra].
  destruct (Req_dec z 0) as [Ez | Nz]; [| nra].
  subst. exfalso. apply Hv. reflexivity.
Qed.

Lemma final_dir_exit_vector (a M_wh : R) (ray_dir : vec3) (st : RayState) :
  final_dir_of a M_wh ray_dir st = normalize3 (exit_vector a M_wh ray_dir st).
Proof. reflexivity. Qed.

Lemma main_dir (rho a M_wh : R) (u : Uniforms) (FragCoord : vec2) :
  exists angle : R,
    dir (main rho a M_wh u FragCoord)
    = mulMV (rotationY angle)
        (final_dir_of a M_wh (ray_dir_of u FragCoord)
           (loop rho a M_wh MAX_STEPS (init_state u FragCoord))).
Proof.
  unfold main, select_env.
  destruct (Rge_dec _ 0); eexists; reflexivity.
Qed.

(** X11. Rotations about the vertical axis compose by adding their
    angles; the zero angle is the identity and the opposite angle
    undoes a rotation. *)
Theorem rotationY_group (alpha beta : R) (v : vec3) :
  mulMV (rotationY alpha) (mulMV (rotationY beta) v)
  = mulMV (rotationY (alpha + beta)) v
  /\ mulMV (rotationY 0) v = v
  /\ mulMV (rotationY (- alpha)) (mulMV (rotationY alpha) v) = v.
Proof.
  split; [apply rotationY_compose |]. split; [apply rotationY_zero |].
  rewrite rotationY_compose.
  replace (- alpha + alpha) with 0 by ring. apply rotationY_zero.
Qed.

(** X12. [rotationY] is an isometry: it keeps dot products, lengths and
    the vertical component. *)
Theorem rotationY_isometry (angle : R) (v w : vec3) :
  dot3 (mulMV (rotationY angle) v) (mulMV (rotationY angle) w) = dot3 v w
  /\ length3 (mulMV (rotationY angle) v) = length3 v
  /\ y3 (mulMV (rotationY angle) v) = y3 v.
Proof.
  split; [apply rotationY_dot |]. split; [apply rotationY_length |].
  rewrite rotationY_apply. reflexivity.
Qed.

(** X13. Whenever the vector handed to the final [normalize] is not the
    zero vector, the direction used to sample the cube map, in either
    environment, has length exactly 1. *)
Theorem sampled_direction_is_unit
  (rho a M_wh : R) (u : Uniforms) (FragCoord : vec2)
  (Hnz : exit_vector a M_wh (ray_dir_of u FragCoord)
           (loop rho a M_wh MAX_STEPS (init_state u FragCoord))
         <> mkVec3 0 0 0) :
  length3 (dir (main rho a M_wh u FragCoord)) = 1.
Proof.
  destruct (main_dir rho a M_wh u FragCoord) as [angle ->].
  rewrite rotationY_length, final_dir_exit_vector.
  apply normalize3_length. apply length3_nonzero. exact Hnz.
Qed.

Lemma sampled_direction_is_unit_witness :
  exit_vector WORMHOLE_A WORMHOLE_M
    (ray_dir_of (looking_out (mkVec3 0 0 15) 0) screen_centre)
    (loop WORMHOLE_RHO WORMHOLE_A WORMHOLE_M MAX_STEPS
       (init_state (looking_out (mkVec3 0 0 15) 0) screen_centre))
  <> mkVec3 0 0 0
  /\ length3 (dir (wormhole_main (looking_out (mkVec3 0 0 15) 0)
                     screen_centre)) = 1.
Proof.
  assert (Hnz : exit_vector WORMHOLE_A WORMHOLE_M
            (ray_dir_of (looking_out (mkVec3 0 0 15) 0) screen_centre)
            (loop WORMHOLE_RHO WORMHOLE_A WORMHOLE_M MAX_STEPS
               (init_state (looking_out (mkVec3 0 0 15) 0) screen_centre))
          <> mkVec3 0 0 0).
  { rewrite init_state_centre_out by lra.
    destruct (axial_run_15 WORMHOLE_RHO WORMHOLE_A WORMHOLE_M 15)
      as [_ [_ [r1 ->]]].
    intros E. apply (f_equal z3) in E.
    unfold exit_vector, exit_dx in E. cbn [z3 l r dl H phi] in E.
    rewrite cos_0, sin_0 in E.
    assert (Hdr : 0 < LtoDR WORMHOLE_A WORMHOLE_M 40).
    { apply LtoDR_pos.
      - unfold WORMHOLE_M. lra.
      - rewrite Rabs_pos_eq by lra. unfold WORMHOLE_A. lra.
      - lra. }
    unfold Rdiv in E. lra. }
  split; [exact Hnz |].
  apply (sampled_direction_is_unit WORMHOLE_RHO WORMHOLE_A WORMHOLE_M
           (looking_out (mkVec3 0 0 15) 0) screen_centre Hnz).
Defined.

Lemma ray_dir_centre_across (camera_pos : vec3) (time : R) :
  ray_dir_of (looking_across camera_pos time) screen_centre = mkVec3 1 0 0.
Proof.
  assert (Huv : uv_of (looking_across camera_pos time) screen_centre
                = mkVec2 0 0).
  { unfold uv_of, looking_across, screen_centre, WINDOW_SIZE.
    cbn [u_resolution x2 y2]. f_equal; field. }
  unfold ray_dir_of. rewrite Huv.
  unfold looking_across, ZOOM, add3, scale3.
  cbn [u_camera_fwd u_camera_right u_camera_up x2 y2 x3 y3 z3].
  unfold normalize3, length3. cbn [x3 y3 z3].
  replace ((1 * 1 + 0 * 0 + 0 * 0) * (1 * 1 + 0 * 0 + 0 * 0)
           + (1 * 0 + 0 * 0 + 0 * 1) * (1 * 0 + 0 * 0 + 0 * 1)
           + (1 * 0 + 0 * 1 + 0 * 0) * (1 * 0 + 0 * 1 + 0 * 0))
    with 1 by ring.
  rewrite sqrt_1. f_equal; field.
Qed.

(** X14. Degenerate exit: for a camera exactly at the origin every ray
    has [H = 0]; if moreover the ray is so flat that [25 * |dir.z| <= a]
    it is still inside the collar after the run, and the vector handed
    to the final [normalize] is the zero vector. *)
Theorem origin_camera_degenerate_exit
  (rho a M_wh : R) (M_pos : 0 < M_wh) (u : Uniforms) (FragCoord : vec2)
  (Horigin : u_camera_pos u = mkVec3 0 0 0)
  (Hflat : 25 * Rabs (z3 (ray_dir_of u FragCoord)) <= a) :
  H (init_state u FragCoord) = 0
  /\ Rabs (l (loop rho a M_wh MAX_STEPS (init_state u FragCoord))) <= a
  /\ exit_vector a M_wh (ray_dir_of u FragCoord)
       (loop rho a M_wh MAX_STEPS (init_state u FragCoord))
     = mkVec3 0 0 0.
Proof.
  set (st0 := init_state u FragCoord).
  assert (HH0 : H st0 = 0).
  { unfold st0, init_state. cbn [H]. rewrite Horigin.
    unfold length3. cbn [x3 y3 z3].
    replace (0 * 0 + 0 * 0 + 0 * 0) with 0 by ring.
    rewrite sqrt_0. ring. }
  assert (Hl0 : l st0 = 0).
  { unfold st0, init_state. cbn [l]. rewrite Horigin. reflexivity. }
  assert (Hdl0 : dl st0 = z3 (ray_dir_of u FragCoord)) by reflexivity.
  destruct (zero_H_run rho a M_wh MAX_STEPS st0 HH0)
    as [_ [Edl [Ephi El]]].
  pose proof (loop_H rho a M_wh MAX_STEPS st0) as EH.
  set (st := loop rho a M_wh MAX_STEPS st0) in *.
  set (k := INR (length (trace rho a M_wh MAX_STEPS st0))) in *.
  assert (Hk : 0 <= k <= 500).
  { unfold k. split; [apply pos_INR |].
    rewrite <- INR_MAX_STEPS. apply le_INR. apply trace_length_le. }
  assert (Hcol : Rabs (l st) <= a).
  { rewrite El, Hl0, Hdl0, Rplus_0_l.
    rewrite Rabs_mult, (Rabs_pos_eq k) by lra.
    unfold DT. rewrite Rabs_mult, (Rabs_pos_eq (5 / 100)) by lra.
    pose proof (Rabs_pos (z3 (ray_dir_of u FragCoord))) as Hz.
    nra. }
  split; [exact HH0 |]. split; [exact Hcol |].
  unfold exit_vector, exit_dx, exit_dy, scale2. cbn [x2 y2].
  rewrite (LtoDR_collar a M_wh M_pos _ Hcol), EH, HH0.
  unfold Rdiv. f_equal; ring.
Qed.

Lemma origin_camera_degenerate_exit_witness :
  0 < WORMHOLE_M
  /\ u_camera_pos (looking_across (mkVec3 0 0 0) 0) = mkVec3 0 0 0
  /\ 25 * Rabs (z3 (ray_dir_of (looking_across (mkVec3 0 0 0) 0)
                      screen_centre)) <= WORMHOLE_A
  /\ exit_vector WORMHOLE_A WORMHOLE_M
       (ray_dir_of (looking_across (mkVec3 0 0 0) 0) screen_centre)
       (loop WORMHOLE_RHO WORMHOLE_A WORMHOLE_M MAX_STEPS
          (init_state (looking_across (mkVec3 0 0 0) 0) screen_centre))
     = mkVec3 0 0 0.
Proof.
  assert (HM : 0 < WORMHOLE_M) by (unfold WORMHOLE_M; lra).
  assert (Hflat : 25 * Rabs (z3 (ray_dir_of
                      (looking_across (mkVec3 0 0 0) 0) screen_centre))
                  <= WORMHOLE_A).
  { rewrite ray_dir_centre_across. cbn [z3]. rewrite Rabs_R0.
    unfold WORMHOLE_A. lra. }
  split; [exact HM |]. split; [reflexivity |]. split; [exact Hflat |].
  destruct (origin_camera_degenerate_exit WORMHOLE_RHO WORMHOLE_A WORMHOLE_M
              HM (looking_across (mkVec3 0 0 0) 0) screen_centre
              eq_refl Hflat) as [_ [_ Hzero]].
  exact Hzero.
Defined.

(** X15. Pixel coordinates inside the window map to [uv] with
    [-1 <= uv.y <= 1] and [|uv.x| <= width / height]: the vertical
    extent is normalised, the horizontal one follows the aspect ratio. *)
Theorem uv_within_window
  (u : Uniforms) (FragCoord : vec2)
  (Hres : 0 < y2 (u_resolution u))
  (Hx : 0 <= x2 FragCoord <= x2 (u_resolution u))
  (Hy : 0 <= y2 FragCoord <= y2 (u_resolution u)) :
  -1 <= y2 (uv_of u FragCoord) <= 1
  /\ Rabs (x2 (uv_of u FragCoord))
     <= x2 (u_resolution u) / y2 (u_resolution u).
Proof.
  unfold uv_of. cbn [x2 y2].
  set (w := x2 (u_resolution u)) in *. set (h := y2 (u_resolution u)) in *.
  assert (Hk : 0 < / h) by (apply Rinv_0_lt_compat; exact Hres).
  assert (Hone : h * / h = 1) by (apply Rinv_r; lra).
  unfold Rdiv. split.
  - split; nra.
  - apply Rabs_le. split; nra.
Qed.

Lemma uv_within_window_witness :
  0 < y2 (u_resolution (looking_in (mkVec3 0 0 15) 0))
  /\ 0 <= x2 pixel_640_360 <= x2 (u_resolution (looking_in (mkVec3 0 0 15) 0))
  /\ 0 <= y2 pixel_640_360 <= y2 (u_resolution (looking_in (mkVec3 0 0 15) 0))
  /\ -1 <= y2 (uv_of (looking_in (mkVec3 0 0 15) 0) pixel_640_360) <= 1.
Proof.
  assert (Hres : 0 < y2 (u_resolution (looking_in (mkVec3 0 0 15) 0))).
  { cbn. lra. }
  assert (Hx : 0 <= x2 pixel_640_360
               <= x2 (u_resolution (looking_in (mkVec3 0 0 15) 0))).
  { cbn. lra. }
  assert (Hy : 0 <= y2 pixel_640_360
               <= y2 (u_resolution (looking_in (mkVec3 0 0 15) 0))).
  { cbn. lra. }
  split; [exact Hres |]. split; [exact Hx |]. split; [exact Hy |].
  destruct (uv_within_window (looking_in (mkVec3 0 0 15) 0) pixel_640_360
              Hres Hx Hy) as [Hrange _].
  exact Hrange.
Defined.

Lemma ray_vector_norm (u : Uniforms) (FragCoord : vec2) :
  orthonormal (u_camera_fwd u) (u_camera_right u) (u_camera_up u) ->
  let v := add3 (add3 (scale3 ZOOM (u_camera_fwd u))
                      (scale3 (x2 (uv_of u FragCoord)) (u_camera_right u)))
                (scale3 (y2 (uv_of u FragCoord)) (u_camera_up u)) in
  dot3 v v
  = 1 + x2 (uv_of u FragCoord) * x2 (uv_of u FragCoord)
      + y2 (uv_of u FragCoord) * y2 (uv_of u FragCoord).
Proof.
  intros [Hff [Hrr [Huu [Hfr [Hfu Hru]]]]] v. unfold v.
  set (ux := x2 (uv_of u FragCoord)). set (uy := y2 (uv_of u FragCoord)).
  destruct (u_camera_fwd u) as [f1 f2 f3].
  destruct (u_camera_right u) as [r1 r2 r3].
  destruct (u_camera_up u) as [p1 p2 p3].
  unfold dot3, add3, scale3, ZOOM in *. cbn [x3 y3 z3] in *.
  replace ((1 * f1 + ux * r1 + uy * p1) * (1 * f1 + ux * r1 + uy * p1)
           + (1 * f2 + ux * r2 + uy * p2) * (1 * f2 + ux * r2 + uy * p2)
           + (1 * f3 + ux * r3 + uy * p3) * (1 * f3 + ux * r3 + uy * p3))
    with ((f1 * f1 + f2 * f2 + f3 * f3)
          + ux * ux * (r1 * r1 + r2 * r2 + r3 * r3)
          + uy * uy * (p1 * p1 + p2 * p2 + p3 * p3)
          + 2 * ux * (f1 * r1 + f2 * r2 + f3 * r3)
          + 2 * uy * (f1 * p1 + f2 * p2 + f3 * p3)
          + 2 * ux * uy * (r1 * p1 + r2 * p2 + r3 * p3)) by ring.
  rewrite Hff, Hrr, Huu, Hfr, Hfu, Hru. ring.
Qed.

Lemma ray_unit_facts
  (u : Uniforms) (FragCoord : vec2)
  (Hbasis : orthonormal (u_camera_fwd u) (u_camera_right u)
                        (u_camera_up u)) :
  length3 (ray_dir_of u FragCoord) = 1
  /\ Rabs (dl (init_state u FragCoord)) <= 1
  /\ dl (init_state u FragCoord) * dl (init_state u FragCoord)
     + length2 (xy (ray_dir_of u FragCoord))
       * length2 (xy (ray_dir_of u FragCoord)) = 1
  /\ 0 <= H (init_state u FragCoord) <= length3 (u_camera_pos u).
Proof.
  pose proof (ray_vector_norm u FragCoord Hbasis) as Hv. cbv zeta in Hv.
  assert (Hunit : length3 (ray_dir_of u FragCoord) = 1).
  { unfold ray_dir_of. apply normalize3_length. apply length3_pos.
    fold (dot3 (add3 (add3 (scale3 ZOOM (u_camera_fwd u))
                       (scale3 (x2 (uv_of u FragCoord)) (u_camera_right u)))
                 (scale3 (y2 (uv_of u FragCoord)) (u_camera_up u)))
               (add3 (add3 (scale3 ZOOM (u_camera_fwd u))
                       (scale3 (x2 (uv_of u FragCoord)) (u_camera_right u)))
                 (scale3 (y2 (uv_of u FragCoord)) (u_camera_up u)))).
    rewrite Hv.
    pose proof (Rle_0_sqr (x2 (uv_of u FragCoord))) as H1.
    pose proof (Rle_0_sqr (y2 (uv_of u FragCoord))) as H2.
    unfold Rsqr in *. lra. }
  pose proof (length3_sqr (ray_dir_of u FragCoord)) as Hsq.
  rewrite Hunit in Hsq.
  assert (HL : length2 (xy (ray_dir_of u FragCoord))
               * length2 (xy (ray_dir_of u FragCoord))
               = x3 (ray_dir_of u FragCoord) * x3 (ray_dir_of u FragCoord)
                 + y3 (ray_dir_of u FragCoord) * y3 (ray_dir_of u FragCoord)).
  { rewrite length2_sqr. reflexivity. }
  assert (HL0 : 0 <= length2 (xy (ray_dir_of u FragCoord))).
  { unfold length2. apply sqrt_pos. }
  assert (Hp0 : 0 <= length3 (u_camera_pos u)).
  { unfold length3. apply sqrt_pos. }
  set (w := ray_dir_of u FragCoord) in *.
  set (L := length2 (xy w)) in *.
  assert (Hz : z3 w * z3 w + L * L = 1) by lra.
  split; [exact Hunit |].
  unfold init_state. cbn [dl H]. fold w. fold L.
  split; [apply Rabs_le; split; nra |].
  split; [exact Hz |].
  split; [apply Rmult_le_pos; assumption |].
  assert (HL1 : L <= 1) by nra.
  nra.
Qed.

(** X16. With an orthonormal camera frame every generated ray is a
    unit vector; hence [|dl0| <= 1], [dl0^2 + |dir.xy|^2 = 1], and the
    invariant satisfies [0 <= H0 <= length(camera.position)]. *)
Theorem ray_is_unit
  (u : Uniforms) (FragCoord : vec2)
  (Hbasis : orthonormal (u_camera_fwd u) (u_camera_right u)
                        (u_camera_up u)) :
  length3 (ray_dir_of u FragCoord) = 1
  /\ Rabs (dl (init_state u FragCoord)) <= 1
  /\ dl (init_state u FragCoord) * dl (init_state u FragCoord)
     + length2 (xy (ray_dir_of u FragCoord))
       * length2 (xy (ray_dir_of u FragCoord)) = 1
  /\ 0 <= H (init_state u FragCoord) <= length3 (u_camera_pos u).
Proof. apply ray_unit_facts. exact Hbasis. Qed.

Lemma ray_is_unit_witness :
  orthonormal (u_camera_fwd (looking_in (mkVec3 0 0 15) 0))
              (u_camera_right (looking_in (mkVec3 0 0 15) 0))
              (u_camera_up (looking_in (mkVec3 0 0 15) 0))
  /\ length3 (ray_dir_of (looking_in (mkVec3 0 0 15) 0) pixel_640_360) = 1.
Proof.
  assert (Hb : orthonormal (u_camera_fwd (looking_in (mkVec3 0 0 15) 0))
                 (u_camera_right (looking_in (mkVec3 0 0 15) 0))
                 (u_camera_up (looking_in (mkVec3 0 0 15) 0))).
  { unfold orthonormal, dot3. cbn. repeat split; ring. }
  split; [exact Hb |].
  destruct (ray_is_unit (looking_in (mkVec3 0 0 15) 0) pixel_640_360 Hb)
    as [Hunit _].
  exact Hunit.
Defined.

(** ** The camera frame built by the host *)

Lemma sin_cos_sqr (x : R) : sin x * sin x + cos x * cos x = 1.
Proof. pose proof (sin2_cos2 x) as Hs. unfold Rsqr in Hs. exact Hs. Qed.

Lemma frame_uniforms_fields (camera_pos : vec3) (yaw pitch time : R) :
  u_camera_pos (frame_uniforms camera_pos yaw pitch time) = camera_pos
  /\ u_camera_fwd (frame_uniforms camera_pos yaw pitch time)
     = cam_fwd_of yaw pitch
  /\ u_camera_right (frame_uniforms camera_pos yaw pitch time)
     = cam_right_of yaw pitch
  /\ u_camera_up (frame_uniforms camera_pos yaw pitch time)
     = cross (cam_right_of yaw pitch) (cam_fwd_of yaw pitch).
Proof. repeat split. Qed.

Lemma cross_fwd_up (yaw pitch : R) :
  cross (cam_fwd_of yaw pitch) global_up
  = mkVec3 (- (sin yaw * cos pitch)) 0 (cos yaw * cos pitch).
Proof.
  unfold cross, cam_fwd_of, global_up. cbn [x3 y3 z3]. f_equal; ring.
Qed.

Lemma cross_fwd_up_length (yaw pitch : R) :
  0 <= cos pitch ->
  length3 (cross (cam_fwd_of yaw pitch) global_up) = cos pitch.
Proof.
  intros Hc. rewrite cross_fwd_up. unfold length3. cbn [x3 y3 z3].
  pose proof (sin_cos_sqr yaw) as Hy.
  replace (- (sin yaw * cos pitch) * - (sin yaw * cos pitch) + 0 * 0
           + cos yaw * cos pitch * (cos yaw * cos pitch))
    with ((sin yaw * sin yaw + cos yaw * cos yaw) * (cos pitch * cos pitch))
    by ring.
  rewrite Hy, Rmult_1_l. apply sqrt_square. exact Hc.
Qed.

Lemma cam_right_value (yaw pitch : R) :
  0 < cos pitch -> cam_right_of yaw pitch = mkVec3 (- sin yaw) 0 (cos yaw).
Proof.
  intros Hc. unfold cam_right_of, normalize3.
  rewrite cross_fwd_up_length by lra. rewrite cross_fwd_up.
  cbn [x3 y3 z3]. f_equal; field; lra.
Qed.

Lemma cam_up_value (yaw pitch : R) :
  0 < cos pitch ->
  cross (cam_right_of yaw pitch) (cam_fwd_of yaw pitch)
  = mkVec3 (- (cos yaw * sin pitch)) (cos pitch) (- (sin yaw * sin pitch)).
Proof.
  intros Hc. rewrite cam_right_value by exact Hc.
  unfold cross, cam_fwd_of. cbn [x3 y3 z3].
  pose proof (sin_cos_sqr yaw) as Hy.
  f_equal; try ring.
  replace (cos yaw * (cos yaw * cos pitch) - - sin yaw * (sin yaw * cos pitch))
    with ((sin yaw * sin yaw + cos yaw * cos yaw) * cos pitch) by ring.
  rewrite Hy. ring.
Qed.

Lemma camera_frame_orthonormal (yaw pitch : R) :
  0 < cos pitch ->
  orthonormal (cam_fwd_of yaw pitch) (cam_right_of yaw pitch)
              (cross (cam_right_of yaw pitch) (cam_fwd_of yaw pitch)).
Proof.
  intros Hc. rewrite cam_up_value, cam_right_value by exact Hc.
  pose proof (sin_cos_sqr yaw) as Hy. pose proof (sin_cos_sqr pitch) as Hp.
  unfold orthonormal, dot3, cam_fwd_of. cbn [x3 y3 z3].
  set (cy := cos yaw) in *. set (sy := sin yaw) in *.
  set (cp := cos pitch) in *. set (sp := sin pitch) in *.
  repeat split.
  - replace (cy * cp * (cy * cp) + sp * sp + sy * cp * (sy * cp))
      with ((sy * sy + cy * cy) * (cp * cp) + sp * sp) by ring.
    rewrite Hy. lra.
  - replace (- sy * - sy + 0 * 0 + cy * cy) with (sy * sy + cy * cy) by ring.
    exact Hy.
  - replace (- (cy * sp) * - (cy * sp) + cp * cp + - (sy * sp) * - (sy * sp))
      with ((sy * sy + cy * cy) * (sp * sp) + cp * cp) by ring.
    rewrite Hy. lra.
  - ring.
  - replace (cy * cp * - (cy * sp) + sp * cp + sy * cp * - (sy * sp))
      with (sp * cp * (1 - (sy * sy + cy * cy))) by ring.
    rewrite Hy. ring.
  - ring.
Qed.

Lemma clamp_pitch_range (p : R) :
  - Rtrigo1.PI / 2 + 1 / 100 <= clamp_pitch p <= Rtrigo1.PI / 2 - 1 / 100.
Proof.
  pose proof PI2_1 as Hpi. unfold clamp_pitch. split.
  - apply Rmax_l.
  - apply Rmax_lub; [lra | apply Rmin_r].
Qed.

Lemma clamp_pitch_cos (p : R) : 0 < cos (clamp_pitch p).
Proof.
  destruct (clamp_pitch_range p) as [Hlo Hhi].
  apply cos_gt_0; lra.
Qed.

Lemma clamp_pitch_id (p : R) :
  - Rtrigo1.PI / 2 + 1 / 100 <= p <= Rtrigo1.PI / 2 - 1 / 100 ->
  clamp_pitch p = p.
Proof.
  intros [Hlo Hhi]. unfold clamp_pitch.
  rewrite Rmin_left by exact Hhi. apply Rmax_right. exact Hlo.
Qed.

(** X17. For any pitch with [cos pitch > 0] the vectors the host uploads
    form an orthonormal frame: [forward] is as written, [right] is
    [(-sin yaw, 0, cos yaw)], [up] is [right x forward], and the cross
    product that is normalised has length [cos pitch]. *)
Theorem camera_basis_orthonormal
  (camera_pos : vec3) (yaw pitch time : R) (Hcos : 0 < cos pitch) :
  orthonormal (u_camera_fwd (frame_uniforms camera_pos yaw pitch time))
              (u_camera_right (frame_uniforms camera_pos yaw pitch time))
              (u_camera_up (frame_uniforms camera_pos yaw pitch time))
  /\ u_camera_right (frame_uniforms camera_pos yaw pitch time)
     = mkVec3 (- sin yaw) 0 (cos yaw)
  /\ length3 (cross (cam_fwd_of yaw pitch) global_up) = cos pitch.
Proof.
  destruct (frame_uniforms_fields camera_pos yaw pitch time)
    as [_ [-> [-> ->]]].
  split; [apply camera_frame_orthonormal; exact Hcos |].
  split; [apply cam_right_value; exact Hcos |].
  apply cross_fwd_up_length. lra.
Qed.

Lemma camera_basis_orthonormal_witness :
  0 < cos 0
  /\ u_camera_right (frame_uniforms (mkVec3 0 0 15) (- (Rtrigo1.PI / 2)) 0 0)
     = mkVec3 (- sin (- (Rtrigo1.PI / 2))) 0 (cos (- (Rtrigo1.PI / 2))).
Proof.
  assert (Hc : 0 < cos 0) by (rewrite cos_0; lra).
  split; [exact Hc |].
  destruct (camera_basis_orthonormal (mkVec3 0 0 15) (- (Rtrigo1.PI / 2))
              0 0 Hc) as [_ [Hr _]].
  exact Hr.
Defined.

(** ** The frame loop *)

Section HostFacts.

Context {Image : Type}.
Variable render : Uniforms -> Image.

Lemma handle_event_camera (fps0 : R) (s : @Sim Image) (e : Event) :
  camera_pos (handle_event fps0 s e) = camera_pos s
  /\ yaw (handle_event fps0 s e) = yaw s
  /\ pitch (handle_event fps0 s e) = pitch s.
Proof.
  destruct e as [| k | k |]; try (repeat split; fail).
  - destruct k; repeat split.
  - destruct k; cbn [handle_event];
      try (repeat split; fail);
      try (destruct (Req_dec_T _ _); repeat split).
    destruct (is_recording s); cbn [negb]; [| repeat split].
    unfold save_gif. cbn [frames_buffer].
    destruct (frames_buffer s); repeat split.
Qed.

Lemma events_camera (fps0 : R) (es : list Event) :
  forall s : @Sim Image,
    camera_pos (fold_left (handle_event fps0) es s) = camera_pos s
    /\ yaw (fold_left (handle_event fps0) es s) = yaw s
    /\ pitch (fold_left (handle_event fps0) es s) = pitch s.
Proof.
  induction es as [| e es IH]; intros s.
  - repeat split.
  - cbn [fold_left].
    destruct (IH (handle_event fps0 s e)) as [E1 [E2 E3]].
    destruct (handle_event_camera fps0 s e) as [F1 [F2 F3]].
    rewrite E1, E2, E3. repeat split; assumption.
Qed.

Lemma handle_event_unit_steps (fps0 : R) (s : @Sim Image) (e : Event) :
  unit_steps (velocity s) -> unit_steps (velocity (handle_event fps0 s e)).
Proof.
  intros [Hx [Hy Hz]].
  destruct e as [| k | k |]; try (repeat split; assumption).
  - destruct k; cbn [handle_event velocity set_velocity stop_running];
      unfold unit_steps; cbn [x3 y3 z3];
      repeat split; try assumption; lra.
  - destruct k; cbn [handle_event];
      try (repeat split; assumption);
      try (destruct (Req_dec_T _ _);
           cbn [velocity set_velocity]; unfold unit_steps;
           cbn [x3 y3 z3]; repeat split; try assumption; lra).
    destruct (is_recording s); cbn [negb velocity].
    + unfold save_gif. cbn [frames_buffer].
      destruct (frames_buffer s); cbn [velocity]; repeat split; assumption.
    + repeat split; assumption.
Qed.

Lemma events_unit_steps (fps0 : R) (es : list Event) :
  forall s : @Sim Image,
    unit_steps (velocity s) ->
    unit_steps (velocity (fold_left (handle_event fps0) es s)).
Proof.
  induction es as [| e es IH]; intros s Hs.
  - exact Hs.
  - cbn [fold_left]. apply IH. apply handle_event_unit_steps. exact Hs.
Qed.

Lemma save_gif_inv (fps0 : R) (s : @Sim Image) :
  is_recording s = false ->
  Forall (fun g => gif_frames g <> []) (gifs s) ->
  recording_inv (save_gif fps0 s).
Proof.
  intros Hrec Hg. unfold save_gif.
  destruct (frames_buffer s) as [| f fs] eqn:E.
  - split; [right; exact E | exact Hg].
  - split; cbn [is_recording frames_buffer gifs].
    + right. reflexivity.
    + apply Forall_app. split; [exact Hg |].
      constructor; [cbn [gif_frames]; discriminate | constructor].
Qed.

Lemma handle_event_inv (fps0 : R) (s : @Sim Image) (e : Event) :
  recording_inv s -> recording_inv (handle_event fps0 s e).
Proof.
  intros [Hb Hg].
  destruct e as [| k | k |]; try (split; assumption).
  - destruct k; split; assumption.
  - destruct k; cbn [handle_event];
      try (split; assumption);
      try (destruct (Req_dec_T _ _); split; assumption).
    destruct (is_recording s) eqn:Hrec; cbn [negb].
    + apply save_gif_inv; [reflexivity | exact Hg].
    + split; [left; reflexivity | exact Hg].
Qed.

Lemma events_inv (fps0 : R) (es : list Event) :
  forall s : @Sim Image,
    recording_inv s -> recording_inv (fold_left (handle_event fps0) es s).
Proof.
  induction es as [| e es IH]; intros s Hs.
  - exact Hs.
  - cbn [fold_left]. apply IH. apply handle_event_inv. exact Hs.
Qed.

Lemma frame_inv (inp : FrameInput) (s : @Sim Image) :
  recording_inv s -> recording_inv (frame render inp s).
Proof.
  intros Hs.
  destruct (events_inv (fps inp) (events inp) s Hs) as [Hb Hg].
  unfold frame. split; cbn [is_recording frames_buffer gifs].
  - destruct (is_recording (fold_left (handle_event (fps inp)) (events inp) s));
      [left; reflexivity |].
    destruct Hb as [Hb | Hb]; [discriminate | right; exact Hb].
  - exact Hg.
Qed.

Lemma frame_unit_steps (inp : FrameInput) (s : @Sim Image) :
  unit_steps (velocity s) -> unit_steps (velocity (frame render inp s)).
Proof.
  intros Hs. unfold frame. cbn [velocity].
  apply events_unit_steps. exact Hs.
Qed.

Lemma frame_pitch (inp : FrameInput) (s : @Sim Image) :
  pitch (frame render inp s)
  = clamp_pitch (pitch s - snd (mouse_rel inp) * (5 / 1000)).
Proof.
  unfold frame. cbn [pitch].
  destruct (events_camera (fps inp) (events inp) s) as [_ [_ ->]].
  reflexivity.
Qed.

Lemma run_invariant (P : @Sim Image -> Prop) :
  (forall inp s, P s -> P (frame render inp s)) ->
  forall inputs s, P s -> P (run render inputs s).
Proof.
  intros Hstep inputs. induction inputs as [| inp rest IH]; intros s Hs.
  - exact Hs.
  - cbn [run]. destruct (running s); [| exact Hs].
    apply IH. apply Hstep. exact Hs.
Qed.

Lemma initial_pitch_range :
  - Rtrigo1.PI / 2 + 1 / 100 <= pitch (@initial_sim Image)
  <= Rtrigo1.PI / 2 - 1 / 100.
Proof. pose proof PI2_1 as Hpi. cbn [initial_sim pitch]. lra. Qed.

End HostFacts.

Lemma uploaded_fields {Image : Type} (inp : FrameInput) (s : @Sim Image) :
  exists (pos : vec3) (yaw' time : R),
    uploaded inp s
    = frame_uniforms pos yaw'
        (clamp_pitch (pitch s - snd (mouse_rel inp) * (5 / 1000))) time.
Proof.
  unfold uploaded.
  destruct (events_camera (fps inp) (events inp) s) as [_ [_ ->]].
  do 3 eexists. reflexivity.
Qed.

(** X18. In every frame, whatever the mouse did, the pitch is clamped
    to [[-pi/2 + 0.01, pi/2 - 0.01]]; so the cross product the host
    normalises has positive length, the uploaded camera frame is
    orthonormal, and every ray the shader builds from it is a unit
    vector. *)
Theorem every_frame_well_formed
  {Image : Type} (render : Uniforms -> Image)
  (inp : FrameInput) (s : @Sim Image) (FragCoord : vec2) :
  - Rtrigo1.PI / 2 + 1 / 100 <= pitch (frame render inp s)
                             <= Rtrigo1.PI / 2 - 1 / 100
  /\ 0 < length3 (cross (cam_fwd_of (yaw (frame render inp s))
                                    (pitch (frame render inp s)))
                        global_up)
  /\ orthonormal (u_camera_fwd (uploaded inp s))
                 (u_camera_right (uploaded inp s))
                 (u_camera_up (uploaded inp s))
  /\ length3 (ray_dir_of (uploaded inp s) FragCoord) = 1.
Proof.
  rewrite frame_pitch.
  set (p := clamp_pitch (pitch s - snd (mouse_rel inp) * (5 / 1000))).
  pose proof (clamp_pitch_cos (pitch s - snd (mouse_rel inp) * (5 / 1000)))
    as Hc. fold p in Hc.
  assert (Hb : orthonormal (u_camera_fwd (uploaded inp s))
                 (u_camera_right (uploaded inp s))
                 (u_camera_up (uploaded inp s))).
  { destruct (uploaded_fields inp s) as [pos [yaw' [time ->]]]. fold p.
    destruct (frame_uniforms_fields pos yaw' p time) as [_ [-> [-> ->]]].
    apply camera_frame_orthonormal. exact Hc. }
  split; [apply clamp_pitch_range |].
  split; [rewrite cross_fwd_up_length; lra |].
  split; [exact Hb |].
  apply ray_unit_facts. exact Hb.
Qed.

(** X19. Along any run from the initial state the velocity components
    are always -1, 0 or 1 and the pitch stays inside the clamp range. *)
Theorem run_keeps_controls_bounded
  {Image : Type} (render : Uniforms -> Image) (inputs : list FrameInput) :
  unit_steps (velocity (run render inputs initial_sim))
  /\ - Rtrigo1.PI / 2 + 1 / 100 <= pitch (run render inputs initial_sim)
                                <= Rtrigo1.PI / 2 - 1 / 100.
Proof.
  split.
  - apply (run_invariant render (fun s => unit_steps (velocity s))).
    + intros inp s Hs. apply frame_unit_steps. exact Hs.
    + cbn [initial_sim velocity]. unfold unit_steps. cbn [x3 y3 z3].
      repeat split; right; left; reflexivity.
  - apply (run_invariant render
             (fun s => - Rtrigo1.PI / 2 + 1 / 100 <= pitch s
                       <= Rtrigo1.PI / 2 - 1 / 100)).
    + intros inp s _. rewrite frame_pitch. apply clamp_pitch_range.
    + apply initial_pitch_range.
Qed.

(** X20. Movement keys: pressing a bound key sets its velocity component
    to the key's value; releasing it right after resets the component to
    0; and releasing a key whose value is not the current one (the
    opposite key took over, or nothing is held) changes nothing. *)
Theorem key_press_and_release
  {Image : Type} (fps0 : R) (s : @Sim Image) (k : Key) (ax : Axis) (val : R)
  (Hbound : key_binding k = Some (ax, val)) :
  component ax (velocity (handle_event fps0 s (KEYDOWN k))) = val
  /\ component ax
       (velocity (handle_event fps0 (handle_event fps0 s (KEYDOWN k))
                    (KEYUP k))) = 0
  /\ (component ax (velocity s) <> val -> handle_event fps0 s (KEYUP k) = s).
Proof.
  destruct k; cbn [key_binding] in Hbound; try discriminate;
    injection Hbound as <- <-;
    cbn [handle_event velocity set_velocity component x3 y3 z3].
  all: split; [reflexivity |].
  all: split;
    [ destruct (Req_dec_T _ _) as [_ | Hn];
      [ reflexivity | exfalso; apply Hn; reflexivity ]
    | intros Hne; destruct (Req_dec_T _ _) as [E | _];
      [ exfalso; apply Hne; exact E | reflexivity ] ].
Qed.

(** X21. Recording: along any run from the initial state, whenever no
    recording is in progress the frame buffer is empty, and no GIF that
    was written is empty. *)
Theorem recording_buffer_invariant
  {Image : Type} (render : Uniforms -> Image) (inputs : list FrameInput) :
  (is_recording (run render inputs initial_sim) = true
   \/ frames_buffer (run render inputs initial_sim) = [])
  /\ Forall (fun g => gif_frames g <> [])
            (gifs (run render inputs initial_sim)).
Proof.
  apply (run_invariant render recording_inv).
  - intros inp s Hs. apply frame_inv. exact Hs.
  - split; [right; reflexivity | constructor].
Qed.

Lemma key_press_and_release_witness :
  key_binding K_w = Some (AxisZ, 1)
  /\ component AxisZ (velocity (@initial_sim unit)) <> 1
  /\ component AxisZ
       (velocity (handle_event 60 (@initial_sim unit) (KEYDOWN K_w))) = 1
  /\ handle_event 60 (@initial_sim unit) (KEYUP K_w) = initial_sim.
Proof.
  assert (Hne : component AxisZ (velocity (@initial_sim unit)) <> 1).
  { cbn. lra. }
  split; [reflexivity |]. split; [exact Hne |].
  destruct (key_press_and_release 60 (@initial_sim unit) K_w AxisZ 1 eq_refl)
    as [Hdown [_ Hup]].
  split; [exact Hdown | exact (Hup Hne)].
Defined.



(** ** Rounding *)

Lemma Int_part_unique (k : Z) (x : R) :
  IZR k <= x < IZR k + 1 -> Int_part x = k.
Proof. intros Hk. symmetry. apply Int_part_spec. lra. Qed.


Lemma rne_error (m : R) : Rabs (IZR (rne m) - m) <= 1 / 2.
Proof.
  destruct (base_Int_part m) as [Hlo Hhi]. unfold rne.
  destruct (Rlt_dec (m - IZR (Int_part m)) (1 / 2)) as [Hd | Hd].
  - apply Rabs_le. lra.
  - destruct (Rlt_dec (1 / 2) (m - IZR (Int_part m))) as [Hu | Hu].
    + rewrite plus_IZR. apply Rabs_le. lra.
    + destruct (Z.even (Int_part m)).
      * apply Rabs_le. lra.
      * rewrite plus_IZR. apply Rabs_le. lra.
Qed.

Lemma Rabs_le_inv2 (x y : R) : Rabs x <= y -> - y <= x <= y.
Proof.
  intros Hxy. unfold Rabs in Hxy. destruct (Rcase_abs x); lra.
Qed.

Lemma rne_nonneg (m : R) : 0 <= m -> (0 <= rne m)%Z.
Proof.
  intros Hm. pose proof (rne_error m) as He.
  apply Rabs_le_inv2 in He.
  assert (Hgt : (-1 < rne m)%Z) by (apply lt_IZR; lra).
  lia.
Qed.


Lemma pow2_pos (z : Z) : 0 < powerRZ 2 z.
Proof. apply powerRZ_lt. lra. Qed.

Lemma pow2_exp (z : Z) : powerRZ 2 z = exp (IZR z * ln 2).
Proof. rewrite powerRZ_Rpower by lra. reflexivity. Qed.

Lemma pow2_cancel (z : Z) : powerRZ 2 (- z) * powerRZ 2 z = 1.
Proof.
  rewrite <- powerRZ_add by lra.
  replace (- z + z)%Z with 0%Z by lia. reflexivity.
Qed.

Lemma pow2_le (z1 z2 : Z) : (z1 <= z2)%Z -> powerRZ 2 z1 <= powerRZ 2 z2.
Proof.
  intros Hz. rewrite !pow2_exp.
  pose proof ln_lt_2 as Hln.
  destruct (Z.eq_dec z1 z2) as [-> | Hne]; [lra |].
  left. apply exp_increasing.
  apply Rmult_lt_compat_r; [lra |]. apply IZR_lt. lia.
Qed.

Lemma pow2_nat (n : nat) : powerRZ 2 (Z.of_nat n) = IZR (2 ^ Z.of_nat n).
Proof. rewrite <- pow_IZR. rewrite <- pow_powerRZ. reflexivity. Qed.

Lemma mag2_spec (x : R) :
  x <> 0 -> powerRZ 2 (mag2 x - 1) <= Rabs x < powerRZ 2 (mag2 x).
Proof.
  intros Hx. pose proof ln_lt_2 as Hln.
  assert (Hax : 0 < Rabs x) by (apply Rabs_pos_lt; exact Hx).
  unfold mag2.
  destruct (base_Int_part (ln (Rabs x) / ln 2)) as [Hlo Hhi].
  set (f := Int_part (ln (Rabs x) / ln 2)) in *.
  assert (Hq : ln (Rabs x) / ln 2 * ln 2 = ln (Rabs x)) by (field; lra).
  replace (f + 1 - 1)%Z with f by lia.
  rewrite !pow2_exp, plus_IZR.
  assert (Hle : IZR f * ln 2 <= ln (Rabs x)).
  { rewrite <- Hq. apply Rmult_le_compat_r; lra. }
  assert (Hlt : ln (Rabs x) < (IZR f + 1) * ln 2).
  { rewrite <- Hq. apply Rmult_lt_compat_r; lra. }
  pose proof (exp_ln (Rabs x) Hax) as Hexp.
  split.
  - destruct Hle as [Hl | Heq].
    + apply exp_increasing in Hl. lra.
    + rewrite Heq. lra.
  - apply exp_increasing in Hlt. lra.
Qed.


Section Rounding.

Variables prec emin : Z.


Lemma round_float_nonneg (x : R) : 0 <= x -> 0 <= round_float prec emin x.
Proof.
  intros Hx. unfold round_float.
  destruct (Req_dec_T x 0) as [_ | Hn]; [lra |].
  set (c := Z.max (mag2 x - prec) emin).
  pose proof (pow2_pos c) as Hc. pose proof (pow2_pos (- c)) as Hc'.
  apply Rmult_le_pos; [| lra].
  apply IZR_le. apply rne_nonneg. apply Rmult_le_pos; lra.
Qed.


(** Half an ulp: relative [2^-prec], plus the subnormal floor. *)
Lemma round_float_error (x : R) :
  Rabs (round_float prec emin x - x)
  <= Rabs x * powerRZ 2 (- prec) + powerRZ 2 (emin - 1).
Proof.
  pose proof (pow2_pos (- prec)) as Hpp. pose proof (pow2_pos (emin - 1)) as Hpe.
  unfold round_float. destruct (Req_dec_T x 0) as [-> | Hn].
  - rewrite Rminus_0_r, Rabs_R0, Rmult_0_l. lra.
  - set (c := Z.max (mag2 x - prec) emin).
    pose proof (pow2_pos c) as Hc.
    pose proof (rne_error (x * powerRZ 2 (- c))) as He.
    replace (IZR (rne (x * powerRZ 2 (- c))) * powerRZ 2 c - x)
      with ((IZR (rne (x * powerRZ 2 (- c))) - x * powerRZ 2 (- c))
            * powerRZ 2 c).
    2:{ rewrite Rmult_minus_distr_r, Rmult_assoc, pow2_cancel. ring. }
    rewrite Rabs_mult, (Rabs_pos_eq (powerRZ 2 c)) by lra.
    destruct (mag2_spec x Hn) as [Hlo _].
    assert (Hcsum : powerRZ 2 c
                    <= 2 * (Rabs x * powerRZ 2 (- prec))
                       + 2 * powerRZ 2 (emin - 1)).
    { unfold c. destruct (Z.max_spec (mag2 x - prec) emin) as [[_ ->] | [_ ->]].
      - replace emin with (1 + (emin - 1))%Z at 1 by lia.
        rewrite powerRZ_add by lra. change (powerRZ 2 1) with (2 * 1).
        pose proof (Rabs_pos x). nra.
      - replace (mag2 x - prec)%Z with (1 + ((mag2 x - 1) + - prec))%Z by lia.
        rewrite powerRZ_add by lra. rewrite powerRZ_add by lra.
        change (powerRZ 2 1) with (2 * 1). nra. }
    pose proof (Rabs_pos (IZR (rne (x * powerRZ 2 (- c)))
                          - x * powerRZ 2 (- c))) as Hab.
    nra.
Qed.

End Rounding.

(** ** binary32 and binary64 *)

Lemma pow2_neg_nat (n : nat) :
  powerRZ 2 (- Z.of_nat n) = / IZR (2 ^ Z.of_nat n).
Proof. rewrite powerRZ_neg', pow2_nat. reflexivity. Qed.












(** ** The radius in binary32 *)












(** ** The GIF frame duration *)

Lemma pow2_m53 : powerRZ 2 (-53) = / 9007199254740992.
Proof. exact (pow2_neg_nat 53). Qed.

Lemma f64_error (x : R) :
  Rabs (f64 x - x) <= Rabs x * powerRZ 2 (-53) + powerRZ 2 (-1075).
Proof. exact (round_float_error 53 (-1074) x). Qed.

Lemma f64_nonneg (x : R) : 0 <= x -> 0 <= f64 x.
Proof. apply round_float_nonneg. Qed.

(** X22. Frame duration of a saved GIF: for a positive frame rate it is
    the integer [d >= 0] with [d <= q < d + 1], where [q] is the binary64
    quotient [1000 / fps], itself within half an ulp of the exact
    quotient; it is 0 as soon as [fps >= 1001]. *)
Theorem gif_duration_of_rounded_quotient (fps0 : R) (Hfps : 0 < fps0) :
  (0 <= gif_duration_for fps0)%Z
  /\ IZR (gif_duration_for fps0) <= f64 (1000 / fps0)
     < IZR (gif_duration_for fps0) + 1
  /\ Rabs (f64 (1000 / fps0) - 1000 / fps0)
     <= 1000 / fps0 * powerRZ 2 (-53) + powerRZ 2 (-1075)
  /\ (1001 <= fps0 -> gif_duration_for fps0 = 0%Z).
Proof.
  unfold gif_duration_for. destruct (Rlt_dec 0 fps0) as [_ | Hn]; [| lra].
  assert (Hq : 0 < 1000 / fps0) by (apply Rdiv_lt_0_compat; lra).
  pose proof (f64_nonneg (1000 / fps0) (Rlt_le _ _ Hq)) as Hnn.
  pose proof (f64_error (1000 / fps0)) as Herr.
  rewrite (Rabs_pos_eq (1000 / fps0)) in Herr by lra.
  destruct (base_Int_part (f64 (1000 / fps0))) as [Hlo Hhi].
  assert (Hd : (0 <= Int_part (f64 (1000 / fps0)))%Z).
  { assert (Hgt : (-1 < Int_part (f64 (1000 / fps0)))%Z).
    { apply lt_IZR. lra. }
    lia. }
  split; [exact Hd |]. split; [split; lra |]. split; [exact Herr |].
  intros Hfast.
  assert (Hq1 : 1000 / fps0 <= 1000 / 1001).
  { unfold Rdiv. apply Rmult_le_compat_l; [lra |].
    apply Rinv_le_contravar; lra. }
  assert (Hp53 : powerRZ 2 (-53) <= / 1000000000000000).
  { rewrite pow2_m53. apply Rinv_le_contravar; lra. }
  assert (Hp1075 : powerRZ 2 (-1075) <= powerRZ 2 (-53)).
  { apply pow2_le. lia. }
  pose proof (pow2_pos (-53)) as Hpos53.
  apply Rabs_le_inv2 in Herr.
  assert (Hlt1 : f64 (1000 / fps0) < 1) by nra.
  apply Int_part_unique. lra.
Qed.

Lemma gif_duration_of_rounded_quotient_witness :
  0 < 2000 /\ 1001 <= 2000 /\ gif_duration_for 2000 = 0%Z.
Proof.
  assert (Hfps : 0 < 2000) by lra.
  assert (Hfast : 1001 <= 2000) by lra.
  split; [exact Hfps |]. split; [exact Hfast |].
  destruct (gif_duration_of_rounded_quotient 2000 Hfps) as [_ [_ [_ Hzero]]].
  exact (Hzero Hfast).
Defined.
